(** * The parallel-join callback of cpp11_parallel_callback

    A shallow embedding of [ParallelCallbackData] and [ParallelCallback]
    (parallel_test_2.cpp, parallel_test_3.cpp) and of the first attempt of
    parallel_test_1.cpp, together with the properties of the join that
    hold on it.

    Every member function is a program over the atomic operations it
    performs on the shared [ParallelCallbackData]; the operators of
    [std::atomic] are sequentially consistent, so that a run of several
    threads is an interleaving of these operations. *)

From stdpp Require Import base tactics option list numbers relations.

Local Open Scope Z_scope.

(** ** [int] *)

(** The counter is a [std::atomic<int>]: an [int] of 32 bits, as g++ has
    it, in two's complement, and arithmetic on an atomic wraps around. *)
Definition int_min : Z := -2147483648.
Definition int_max : Z := 2147483647.

Definition wrap (z : Z) : Z := (z + 2147483648) `mod` 4294967296 - 2147483648.

(** ** [ParallelCallbackData] *)

(** [callback] is a [std::function<void()>]: the primitive only tests
    whether it holds a target and calls it; [true] stands for a function
    with a target, [false] for an empty one. *)
Record Data : Type := mkData {
  callback : bool;
  counter : Z;
  started : bool
}.

(** The constructor: [callback(callback), counter(0), started(false)]. *)
Definition ParallelCallbackData (cb : bool) : Data :=
  {| callback := cb; counter := 0; started := false |}.

Definition set_counter (z : Z) (d : Data) : Data :=
  {| callback := callback d; counter := z; started := started d |}.

Definition set_started (b : bool) (d : Data) : Data :=
  {| callback := callback d; counter := counter d; started := b |}.

(** [++counter] and [counter--] on the atomic. *)
Definition fetch_add (d : Data) : Data := set_counter (wrap (counter d + 1)) d.
Definition fetch_sub (d : Data) : Data := set_counter (wrap (counter d - 1)) d.

(** ** Programs over the atomic operations *)

(** A program is a tree of the operations a thread performs on the shared
    data, each of them atomic; the continuation receives what the
    operation read. *)
Inductive Prog (A : Type) : Type :=
| Ret (a : A)
| Abort                                   (* a failed assert *)
| LoadStarted (k : bool → Prog A)         (* data->started, read *)
| StoreStarted (b : bool) (k : Prog A)    (* data->started = b *)
| IncCounter (k : Prog A)                 (* ++data->counter *)
| DecCounter (k : Z → Prog A)             (* data->counter--, the old value *)
| LoadCounter (k : Z → Prog A)            (* counter->load() *)
| TestCallback (k : bool → Prog A)        (* data->callback, as a bool *)
| CallCallback (k : Prog A)               (* callback() *)
| Spawn (task : Prog unit) (k : Prog A).  (* a task of its own thread *)

Arguments Ret {A} a.
Arguments Abort {A}.
Arguments LoadStarted {A} k.
Arguments StoreStarted {A} b k.
Arguments IncCounter {A} k.
Arguments DecCounter {A} k.
Arguments LoadCounter {A} k.
Arguments TestCallback {A} k.
Arguments CallCallback {A} k.
Arguments Spawn {A} task k.

Fixpoint bind {A B : Type} (p : Prog A) (f : A → Prog B) : Prog B :=
  match p with
  | Ret a => f a
  | Abort => Abort
  | LoadStarted k => LoadStarted (λ b, bind (k b) f)
  | StoreStarted b k => StoreStarted b (bind k f)
  | IncCounter k => IncCounter (bind k f)
  | DecCounter k => DecCounter (λ z, bind (k z) f)
  | LoadCounter k => LoadCounter (λ z, bind (k z) f)
  | TestCallback k => TestCallback (λ b, bind (k b) f)
  | CallCallback k => CallCallback (bind k f)
  | Spawn task k => Spawn task (bind k f)
  end.

Notation "'do' x <- p ; q" := (bind p (λ x, q))
  (at level 10, x binder, p at level 100, q at level 200,
   format "'[v' 'do'  x  <-  p ; '/' q ']'").

Definition load_started : Prog bool := LoadStarted Ret.
Definition store_started (b : bool) : Prog unit := StoreStarted b (Ret ()).
Definition inc_counter : Prog unit := IncCounter (Ret ()).
Definition dec_counter : Prog Z := DecCounter Ret.
Definition load_counter : Prog Z := LoadCounter Ret.
Definition test_callback : Prog bool := TestCallback Ret.
Definition call_callback : Prog unit := CallCallback (Ret ()).
Definition spawn (task : Prog unit) : Prog unit := Spawn task (Ret ()).

(** [assert(e)]; the programs are built without NDEBUG. *)
Definition assert (b : bool) : Prog unit := if b then Ret () else Abort.

(** A [Callback] a thread can call: the program of the call. *)
Definition Callback : Type := Prog unit.

(** ** [ParallelCallback] (parallel_test_2.cpp, parallel_test_3.cpp) *)

(** [step]: [counter-- == 0] compares the value before the decrement;
    [started && callback] reads the flag first. *)
Definition step : Prog unit :=
  do old <- dec_counter;
  if old =? 0 then
    do s <- load_started;
    if s then
      do cb <- test_callback;
      if cb then call_callback else Ret ()
    else Ret ()
  else Ret ().

(** [operator Callback()]: the slot is [step] bound to the shared data. *)
Definition mint : Prog Callback :=
  do s <- load_started;
  do _ <- assert (negb s);
  do _ <- inc_counter;
  Ret step.

Definition check : Prog unit :=
  do s <- load_started;
  do _ <- assert (negb s);
  do _ <- store_started true;
  step.

(** A starter is called with the slot converted from [*this]. *)
Definition Starter : Type := Callback → Prog unit.

(** [operator()]: overload resolution on the argument list. No overload
    takes an empty list; one argument selects [operator()(Arg&&)], which
    ends with [check()]; more select the variadic overload, which
    recurses on the rest. *)
Fixpoint call_operator (args : list Starter) : option (Prog unit) :=
  match args with
  | [] => None
  | arg :: args' =>
      match args' with
      | [] => Some (do slot <- mint; do _ <- arg slot; check)
      | _ :: _ =>
          rest ← call_operator args';
          Some (do slot <- mint; do _ <- arg slot; rest)
      end
  end.

(** [run(arg, args...)]: the data of the [ParallelCallback] it constructs
    and the program of [parallel(args...)]; [None] when the call does not
    resolve. *)
Definition run (arg : bool) (args : list Starter) : option (Data * Prog unit) :=
  body ← call_operator args;
  Some (ParallelCallbackData arg, body).

(** [asyncCall], [startTaskOne] and [startTaskTwo]. The task handed to
    [std::async] is a thread that runs at any later time, the spawn
    capability of the specification; that the program drops the returned
    future, and so waits for the task, only removes interleavings: the
    runs of the program as written are those of [reaches_waiting]. *)
Definition asyncCall (callback : Callback) : Prog unit := spawn callback.
Definition startTaskOne : Starter := asyncCall.
Definition startTaskTwo : Starter := asyncCall.

(** [startTwoTasks] of parallel_test_2.cpp and of parallel_test_3.cpp. *)
Definition startTwoTasks2 : Prog unit :=
  do slot1 <- mint; do _ <- startTaskOne slot1;
  do slot2 <- mint; do _ <- startTaskTwo slot2;
  check.

Definition startTwoTasks3 (callback : bool) : option (Data * Prog unit) :=
  run callback [startTaskOne; startTaskTwo].

(** The fan-out in the words of the specification: for each starter in
    sequence a slot is minted and the starter called with it; after the
    last one, [close()]. [run_fans_out] shows that it is the program [run]
    executes for every non-empty list of starters. *)
Definition fan_out (starters : list Starter) : Prog unit :=
  foldr (λ starter rest, do slot <- mint; do _ <- starter slot; rest)
        check starters.

(** A join over [n] tasks started by [asyncCall]; with no task it is the
    handle closed at once, [ParallelCallback p(c); p.check();]. *)
Definition join (n : nat) : Prog unit := fan_out (replicate n asyncCall).

(** ** Operations and their record *)

(** The operations of a run, with what each of them read. *)
Variant Op : Type :=
| OpLoadStarted (b : bool)
| OpStoreStarted (b : bool)
| OpInc
| OpDec (old : Z)
| OpLoadCounter (now : Z)
| OpTest (b : bool)
| OpCall
| OpSpawn
| OpAbort
| OpThrow.

(** An operation and the thread that performed it. *)
Definition Event : Type := nat * Op.

(** What the next operation of a program does on data [d]: the program
    has returned; or it goes on after an operation, with the data it
    leaves and the tasks it starts; or an assertion fails; or an empty
    function is called ([std::bad_function_call]). *)
Variant Move (A : Type) : Type :=
| Halt
| Go (op : Op) (k : Prog A) (d : Data) (tasks : list (Prog unit))
| Fail
| Throw.

Arguments Halt {A}.
Arguments Go {A} op k d tasks.
Arguments Fail {A}.
Arguments Throw {A}.

Definition move {A : Type} (p : Prog A) (d : Data) : Move A :=
  match p with
  | Ret _ => Halt
  | Abort => Fail
  | LoadStarted k => Go (OpLoadStarted (started d)) (k (started d)) d []
  | StoreStarted b k => Go (OpStoreStarted b) k (set_started b d) []
  | IncCounter k => Go OpInc k (fetch_add d) []
  | DecCounter k => Go (OpDec (counter d)) (k (counter d)) (fetch_sub d) []
  | LoadCounter k => Go (OpLoadCounter (counter d)) (k (counter d)) d []
  | TestCallback k => Go (OpTest (callback d)) (k (callback d)) d []
  | CallCallback k => if callback d then Go OpCall k d [] else Throw
  | Spawn task k => Go OpSpawn k d [task]
  end.

(** ** A call run on its own *)

(** What a call by thread [me] comes to when no other thread runs in
    between: the value returned, the data, the record of operations (the
    latest first) and the tasks started; or a failed assertion; or
    [std::bad_function_call]. *)
Variant Outcome (A : Type) : Type :=
| Returns (a : A) (d : Data) (log : list Event) (tasks : list (Prog unit))
| AssertionFails
| Throws.

Arguments Returns {A} a d log tasks.
Arguments AssertionFails {A}.
Arguments Throws {A}.

Fixpoint interp {A : Type} (me : nat) (p : Prog A) (d : Data)
    (log : list Event) (tasks : list (Prog unit)) : Outcome A :=
  match p with
  | Ret a => Returns a d log tasks
  | Abort => AssertionFails
  | LoadStarted k =>
      interp me (k (started d)) d ((me, OpLoadStarted (started d)) :: log) tasks
  | StoreStarted b k =>
      interp me k (set_started b d) ((me, OpStoreStarted b) :: log) tasks
  | IncCounter k => interp me k (fetch_add d) ((me, OpInc) :: log) tasks
  | DecCounter k =>
      interp me (k (counter d)) (fetch_sub d) ((me, OpDec (counter d)) :: log) tasks
  | LoadCounter k =>
      interp me (k (counter d)) d ((me, OpLoadCounter (counter d)) :: log) tasks
  | TestCallback k =>
      interp me (k (callback d)) d ((me, OpTest (callback d)) :: log) tasks
  | CallCallback k =>
      if callback d then interp me k d ((me, OpCall) :: log) tasks else Throws
  | Spawn task k => interp me k d ((me, OpSpawn) :: log) (tasks ++ [task])
  end.

(** ** Threads *)

(** The shared data, the record of the operations performed so far (the
    latest first), whether an assertion has aborted the process, and the
    threads: the program each of them has left to run. Thread 0 is the one
    the run begins with. *)
Record Config : Type := mkConfig {
  data : Data;
  log : list Event;
  aborted : bool;
  pool : list (Prog unit)
}.

(** Thread [i] performs its next operation. A thread that has returned has
    no step, nor has any thread once the process is aborted; a task that
    throws is over. *)
Definition thread_step (i : nat) (c : Config) : option Config :=
  if aborted c then None else
  match pool c !! i with
  | None => None
  | Some p =>
      match move p (data c) with
      | Halt => None
      | Go op k d tasks =>
          Some (mkConfig d ((i, op) :: log c) false (<[i := k]> (pool c) ++ tasks))
      | Fail => Some (mkConfig (data c) ((i, OpAbort) :: log c) true (pool c))
      | Throw =>
          Some (mkConfig (data c) ((i, OpThrow) :: log c) false
                         (<[i := Ret ()]> (pool c)))
      end
  end.

Definition sched_step (c c' : Config) : Prop :=
  ∃ i : nat, thread_step i c = Some c'.

(** [c'] is reached from [c] by some interleaving. *)
Definition reaches : Config → Config → Prop := rtc sched_step.

(** A schedule names the thread of each step; a thread that has no step is
    passed over. *)
Fixpoint exec (sched : list nat) (c : Config) : Config :=
  match sched with
  | [] => c
  | i :: sched' =>
      match thread_step i c with
      | Some c' => exec sched' c'
      | None => exec sched' c
      end
  end.

Definition returned (p : Prog unit) : bool :=
  match p with Ret _ => true | _ => false end.

(** The whole run is over: every thread has returned. *)
Definition finished (c : Config) : bool :=
  negb (aborted c) && forallb returned (pool c).

(** One thread running [p] on data [d]. *)
Definition start (d : Data) (p : Prog unit) : Config :=
  {| data := d; log := []; aborted := false; pool := [p] |}.

(** The join over [n] tasks with completion [cb]. *)
Definition join_start (cb : bool) (n : nat) : Config :=
  start (ParallelCallbackData cb) (join n).

(** ** What a run shows *)

Definition tally (f : Event → bool) (l : list Event) : nat :=
  sum_list_with (λ e, if f e then 1%nat else 0%nat) l.

Definition is_call (e : Event) : bool :=
  match e.2 with OpCall => true | _ => false end.

Definition is_inc (e : Event) : bool :=
  match e.2 with OpInc => true | _ => false end.

Definition is_dec (e : Event) : bool :=
  match e.2 with OpDec _ => true | _ => false end.

Definition by_first (e : Event) : bool := Nat.eqb e.1 0.

(** The calls of the completion so far. *)
Definition fired (c : Config) : nat := tally is_call (log c).

(** The slots minted so far: the increments of the counter. *)
Definition minted (c : Config) : nat := tally is_inc (log c).

(** The slots invoked so far: the decrements by the tasks. *)
Definition invoked (c : Config) : nat :=
  tally (λ e, is_dec e && negb (by_first e)) (log c).

(** Whether [check()] has made its decrement: the decrement by thread 0. *)
Definition closed (c : Config) : nat :=
  tally (λ e, is_dec e && by_first e) (log c).

(** The record of [k] mints in a row by the first thread, on top of [lg]. *)
Fixpoint log_mints (k : nat) (lg : list Event) : list Event :=
  match k with
  | O => lg
  | S k' =>
      log_mints k' ((0%nat, OpSpawn) :: (0%nat, OpInc) ::
                    (0%nat, OpLoadStarted false) :: lg)
  end.

(** The record of [k] slots called one after the other, each of them
    finding a counter other than 0: the tasks are the threads from [i] on
    and the counter stands at [z]. *)
Fixpoint log_slots (k i : nat) (z : Z) (lg : list Event) : list Event :=
  match k with
  | O => lg
  | S k' => log_slots k' (S i) (wrap (z - 1)) ((i, OpDec z) :: lg)
  end.

(** As many tasks as the counter has values. *)
Definition two32 : nat := Z.to_nat 4294967296.
Definition two31 : nat := Z.to_nat 2147483648.

(** ** parallel_test_1.cpp *)

Module Test1.

(** [std::make_shared<std::atomic<int>>(2)]; the lambda captures the
    counter and [callback]. The flag is not part of this version. *)
Definition shared (callback : bool) : Data :=
  {| callback := callback; counter := 2; started := false |}.

(** The lambda [parallel]: the counter is decremented, the value of the
    decrement dropped, and then read again: [counter->load() == 0]. *)
Definition parallel : Callback :=
  do _ <- dec_counter;
  do now <- load_counter;
  if now =? 0 then call_callback else Ret ().

Definition startTwoTasks : Prog unit :=
  do _ <- startTaskOne parallel;
  startTaskTwo parallel.

Definition main_start (callback : bool) : Config :=
  start (shared callback) startTwoTasks.

End Test1.

(** ** Program points *)

(** Where a thread is inside [step]: before the decrement (a slot not yet
    invoked), before reading [started] (the decrement found 0), before
    testing [callback], before the call, and after the return. *)
Variant StepPc : Type := PcDec | PcStarted | PcTarget | PcCall | PcEnd.

Global Instance StepPc_eq_dec : EqDecision StepPc.
Proof. solve_decision. Defined.

Definition step_at (pc : StepPc) : Prog unit :=
  match pc with
  | PcDec => step
  | PcStarted =>
      do s <- load_started;
      if s then
        do cb <- test_callback;
        if cb then call_callback else Ret ()
      else Ret ()
  | PcTarget =>
      do cb <- test_callback;
      if cb then call_callback else Ret ()
  | PcCall => call_callback
  | PcEnd => Ret ()
  end.

Definition step_next (pc : StepPc) (d : Data) : StepPc :=
  match pc with
  | PcDec => if counter d =? 0 then PcStarted else PcEnd
  | PcStarted => if started d then PcTarget else PcEnd
  | PcTarget => if callback d then PcCall else PcEnd
  | PcCall => PcEnd
  | PcEnd => PcEnd
  end.

Definition step_op (pc : StepPc) (d : Data) : Op :=
  match pc with
  | PcDec => OpDec (counter d)
  | PcStarted => OpLoadStarted (started d)
  | PcTarget => OpTest (callback d)
  | _ => OpCall
  end.

Definition step_data (pc : StepPc) (d : Data) : Data :=
  match pc with PcDec => fetch_sub d | _ => d end.

(** Where the first thread is inside [join n]: at the assertion of a mint
    with [k] starters after this one, at its increment, at the call of the
    starter; at the assertion of [check], at its store; inside the [step]
    that [check] calls. *)
Variant MainPc : Type :=
| MMint (k : nat)
| MInc (k : nat)
| MSpawn (k : nat)
| MCheck
| MStore
| MStep (pc : StepPc).

Global Instance MainPc_eq_dec : EqDecision MainPc.
Proof. solve_decision. Defined.

Definition main_at (m : MainPc) : Prog unit :=
  match m with
  | MMint k => join (S k)
  | MInc k => do _ <- inc_counter; do _ <- asyncCall step; join k
  | MSpawn k => do _ <- asyncCall step; join k
  | MCheck => check
  | MStore => do _ <- store_started true; step
  | MStep pc => step_at pc
  end.

Definition main_of_left (k : nat) : MainPc :=
  match k with O => MCheck | S k' => MMint k' end.

Definition main_next (m : MainPc) (d : Data) : MainPc :=
  match m with
  | MMint k => MInc k
  | MInc k => MSpawn k
  | MSpawn k => main_of_left k
  | MCheck => MStore
  | MStore => MStep PcDec
  | MStep pc => MStep (step_next pc d)
  end.

Definition main_op (m : MainPc) (d : Data) : Op :=
  match m with
  | MMint _ | MCheck => OpLoadStarted (started d)
  | MInc _ => OpInc
  | MSpawn _ => OpSpawn
  | MStore => OpStoreStarted true
  | MStep pc => step_op pc d
  end.

Definition main_data (m : MainPc) (d : Data) : Data :=
  match m with
  | MInc _ => fetch_add d
  | MStore => set_started true d
  | MStep pc => step_data pc d
  | _ => d
  end.

(** The task the step of the first thread starts, if any. *)
Definition main_tasks (m : MainPc) : list StepPc :=
  match m with MSpawn _ => [PcDec] | _ => [] end.

(** The counts the invariant is about. *)
Definition decremented (pc : StepPc) : nat :=
  match pc with PcDec => 0 | _ => 1 end.

Definition in_flight (pc : StepPc) : nat :=
  match pc with PcStarted | PcTarget | PcCall => 1 | _ => 0 end.

Definition past_flag (pc : StepPc) : nat :=
  match pc with PcTarget | PcCall => 1 | _ => 0 end.

Definition calling (pc : StepPc) : nat :=
  match pc with PcCall => 1 | _ => 0 end.

Definition main_count (g : StepPc → nat) (m : MainPc) : nat :=
  match m with MStep pc => g pc | _ => 0 end.

Definition total (g : StepPc → nat) (m : MainPc) (spcs : list StepPc) : nat :=
  main_count g m + sum_list_with g spcs.

(** Starters not yet given their slot. *)
Definition main_left (m : MainPc) : nat :=
  match m with MMint k | MInc k | MSpawn k => S k | _ => 0 end.

(** An increment whose slot is not a task yet. *)
Definition main_incs (m : MainPc) : nat :=
  match m with MSpawn _ => 1 | _ => 0 end.

Definition main_started (m : MainPc) : bool :=
  match m with MStep _ => true | _ => false end.

(** Increments less decrements. *)
Definition balance (m : MainPc) (spcs : list StepPc) : Z :=
  Z.of_nat (main_incs m + length spcs) - Z.of_nat (total decremented m spcs).

(** The invariant of the join over [n] tasks, for the first thread at [m]
    and the tasks at [spcs]. The last field is what the counter gives as
    long as the number of tasks fits its 32 bits. *)
Record Facts (n : nat) (m : MainPc) (spcs : list StepPc) (d : Data)
    (lg : list Event) : Prop := {
  facts_left : (main_left m + length spcs)%nat = n;
  facts_counter : counter d = wrap (balance m spcs);
  facts_started : started d = main_started m;
  facts_flag :
    (1 ≤ total past_flag m spcs + tally is_call lg)%nat → started d = true;
  facts_target : (1 ≤ total calling m spcs)%nat → callback d = true;
  facts_minted : tally is_inc lg = (main_incs m + length spcs)%nat;
  facts_invoked :
    tally (λ e, is_dec e && negb (by_first e)) lg = sum_list_with decremented spcs;
  facts_closed :
    tally (λ e, is_dec e && by_first e) lg = main_count decremented m;
  facts_once :
    Z.of_nat n < 4294967296 →
    ((1 ≤ total in_flight m spcs + tally is_call lg)%nat → balance m spcs = -1) ∧
    (total in_flight m spcs + tally is_call lg ≤ 1)%nat ∧
    (callback d = true → balance m spcs = -1 →
     (total in_flight m spcs + tally is_call lg)%nat = 1%nat)
}.

Definition InvAt (n : nat) (m : MainPc) (spcs : list StepPc) (c : Config) : Prop :=
  pool c = main_at m :: (step_at <$> spcs) ∧
  aborted c = false ∧
  Facts n m spcs (data c) (log c).

Definition Inv (n : nat) (c : Config) : Prop :=
  ∃ (m : MainPc) (spcs : list StepPc), InvAt n m spcs c.

(** The operations a thread has left at most, and the ones of the whole
    pool: each step takes at least one away. *)
Definition step_weight (pc : StepPc) : nat :=
  match pc with
  | PcDec => 4 | PcStarted => 3 | PcTarget => 2 | PcCall => 1 | PcEnd => 0
  end.

Definition main_weight (m : MainPc) : nat :=
  match m with
  | MMint k => 13 + 7 * k
  | MInc k => 12 + 7 * k
  | MSpawn k => 11 + 7 * k
  | MCheck => 6
  | MStore => 5
  | MStep pc => step_weight pc
  end.

Definition weight (m : MainPc) (spcs : list StepPc) : nat :=
  main_weight m + sum_list_with step_weight spcs.

(** A run of a join over two tasks: the first slot is invoked between the
    mints, [check()] runs before the second. *)
Definition run2 : Config :=
  exec [0; 0; 0; 1; 0; 0; 0; 0; 0; 0; 2; 2; 2; 2]%nat (join_start true 2).

(** ** Further readings of a run *)

Definition is_throw (e : Event) : bool :=
  match e.2 with OpThrow => true | _ => false end.

Definition is_abort (e : Event) : bool :=
  match e.2 with OpAbort => true | _ => false end.

(** A read of the counter that found it other than 0. *)
Definition is_load_nonzero (e : Event) : bool :=
  match e.2 with OpLoadCounter now => negb (now =? 0) | _ => false end.

(** A decrement that found the counter at 0. *)
Definition found_zero (e : Event) : bool :=
  match e.2 with OpDec old => old =? 0 | _ => false end.

(** The calls of an empty function so far. *)
Definition thrown (c : Config) : nat := tally is_throw (log c).

(** [k] calls of slots of one handle in a row, by one thread. *)
Fixpoint calls_of_step (k : nat) : Prog unit :=
  match k with
  | O => Ret ()
  | S k' => do _ <- step; calls_of_step k'
  end.

(** A starter whose work is done at once: it calls its slot before it
    returns. *)
Definition callNow : Starter := λ slot, slot.

(** A starter that drops its slot: the slot is never called. *)
Definition dropSlot : Starter := λ _, Ret ().

Definition starter_of (calls : bool) : Starter :=
  if calls then callNow else dropSlot.

(** The slots dropped by starters given as [starter_of]. *)
Definition dropped (bs : list bool) : nat :=
  sum_list_with (λ b : bool, if b then 0%nat else 1%nat) bs.

(** ** Program points of parallel_test_1 *)

(** Where a task is inside the lambda [parallel]: before the decrement,
    before the read of the counter, before the call, and after the return. *)
Variant TaskPc : Type := TDec | TLoad | TCall | TEnd.

Global Instance TaskPc_eq_dec : EqDecision TaskPc.
Proof. solve_decision. Defined.

Definition task_at (pc : TaskPc) : Prog unit :=
  match pc with
  | TDec => Test1.parallel
  | TLoad => do now <- load_counter; if now =? 0 then call_callback else Ret ()
  | TCall => call_callback
  | TEnd => Ret ()
  end.

Definition task_next (pc : TaskPc) (d : Data) : TaskPc :=
  match pc with
  | TDec => TLoad
  | TLoad => if counter d =? 0 then TCall else TEnd
  | _ => TEnd
  end.

Definition task_op (pc : TaskPc) (d : Data) : Op :=
  match pc with
  | TDec => OpDec (counter d)
  | TLoad => OpLoadCounter (counter d)
  | _ => if callback d then OpCall else OpThrow
  end.

Definition task_data (pc : TaskPc) (d : Data) : Data :=
  match pc with TDec => fetch_sub d | _ => d end.

(** Where [startTwoTasks] is: the tasks it has still to start. *)
Definition starter_at (left : nat) : Prog unit :=
  match left with
  | O => Ret ()
  | 1%nat => startTaskTwo Test1.parallel
  | _ => Test1.startTwoTasks
  end.

Definition undecremented (pc : TaskPc) : nat :=
  match pc with TDec => 1 | _ => 0 end.

Definition loading (pc : TaskPc) : nat :=
  match pc with TLoad => 1 | _ => 0 end.

Definition about_to_call (pc : TaskPc) : nat :=
  match pc with TCall => 1 | _ => 0 end.

(** The invariant of parallel_test_1: the counter is the number of tasks
    that have not decremented; each task ends by a call, by a throw where
    the callback is empty, or by a read that finds the counter other than
    0, and at most one task ends by such a read. *)
Record Facts1 (cb : bool) (left : nat) (tpcs : list TaskPc) (d : Data)
    (lg : list Event) : Prop := {
  facts1_left : (left + length tpcs)%nat = 2%nat;
  facts1_callback : callback d = cb;
  facts1_counter :
    counter d = Z.of_nat (left + sum_list_with undecremented tpcs);
  facts1_ends :
    (tally is_call lg + tally is_throw lg + tally is_load_nonzero lg +
     sum_list_with undecremented tpcs + sum_list_with loading tpcs +
     sum_list_with about_to_call tpcs + left)%nat = 2%nat;
  facts1_nonzero : (tally is_load_nonzero lg ≤ 1)%nat;
  facts1_kind :
    if cb then tally is_throw lg = 0%nat else tally is_call lg = 0%nat
}.

Definition Inv1 (cb : bool) (c : Config) : Prop :=
  ∃ (left : nat) (tpcs : list TaskPc),
    pool c = starter_at left :: (task_at <$> tpcs) ∧
    aborted c = false ∧
    Facts1 cb left tpcs (data c) (log c).

(** A run of parallel_test_1 in which the first task is over before the
    second begins, and one in which both decrement before either reads. *)
Definition test1_in_turn : Config :=
  exec [0; 0; 1; 1; 2; 2; 2]%nat (Test1.main_start true).

Definition test1_at_once : Config :=
  exec [0; 0; 1; 2; 1; 2; 1; 2]%nat (Test1.main_start true).

(** The join over two tasks when both slots are minted and no task has
    run, over a completion that holds a target and over an empty one. *)
Definition minted2 (cb : bool) : Config :=
  exec [0; 0; 0; 0; 0; 0]%nat (join_start cb 2).

(** ** The wait of [asyncCall] *)

(** In the source [asyncCall] drops the future that [std::async] returns,
    and the destructor of that future waits for the task: the caller goes
    on only when the task it has started is over. The programs call
    [asyncCall] from their first thread only, and a task starts none: the
    first thread has a step only when every other thread has returned, and
    a task has its step whenever it has one. *)
Definition may_step (i : nat) (c : Config) : bool :=
  match i with
  | O => forallb returned (drop 1 (pool c))
  | S _ => true
  end.

Definition wait_step (i : nat) (c : Config) : option Config :=
  if may_step i c then thread_step i c else None.

Definition waiting_step (c c' : Config) : Prop :=
  ∃ i : nat, wait_step i c = Some c'.

(** [c'] is reached from [c] by a run in which every caller of
    [asyncCall] waits for its task. *)
Definition reaches_waiting : Config → Config → Prop := rtc waiting_step.

Fixpoint exec_waiting (sched : list nat) (c : Config) : Config :=
  match sched with
  | [] => c
  | i :: sched' =>
      match wait_step i c with
      | Some c' => exec_waiting sched' c'
      | None => exec_waiting sched' c
      end
  end.

(** The states of parallel_test_1 when the callers wait: the tasks still
    to start, the points of the tasks started, the counter and the calls
    of the callback. The first task is over, having read 1, before the
    second is started. *)
Definition turn_states : list (nat * list TaskPc * Z * nat) :=
  [(2%nat, [], 2, 0%nat);
   (1%nat, [TDec], 2, 0%nat);
   (1%nat, [TLoad], 1, 0%nat);
   (1%nat, [TEnd], 1, 0%nat);
   (0%nat, [TEnd; TDec], 1, 0%nat);
   (0%nat, [TEnd; TLoad], 0, 0%nat);
   (0%nat, [TEnd; TCall], 0, 0%nat);
   (0%nat, [TEnd; TEnd], 0, 1%nat)].

Definition InTurn (c : Config) : Prop :=
  ∃ (k left : nat) (tpcs : list TaskPc) (z : Z) (f : nat),
    turn_states !! k = Some (left, tpcs, z, f) ∧
    pool c = starter_at left :: (task_at <$> tpcs) ∧
    data c = mkData true z false ∧
    fired c = f ∧
    aborted c = false.

(** The schedule of parallel_test_1 as written: each task runs between
    its start and the next operation of its caller. *)
Definition turn_schedule : list nat := [0; 1; 1; 0; 2; 2; 2]%nat.

Definition test1_as_written : Config :=
  exec_waiting turn_schedule (Test1.main_start true).

(** Two threads that call the lambda [parallel] side by side, with no
    [asyncCall] between them. *)
Definition two_callers : Config :=
  mkConfig (Test1.shared true) [] false [Test1.parallel; Test1.parallel].

(** ** Arithmetic of [int] *)

Lemma wrap_small (z : Z) : int_min ≤ z ≤ int_max → wrap z = z.
Proof.
  unfold int_min, int_max, wrap. intros Hz.
  rewrite Z.mod_small by lia. lia.
Qed.

Lemma wrap_range (z : Z) : int_min ≤ wrap z ≤ int_max.
Proof.
  unfold int_min, int_max, wrap.
  pose proof (Z.mod_pos_bound (z + 2147483648) 4294967296). lia.
Qed.

Lemma wrap_add (a b : Z) : wrap (wrap a + b) = wrap (a + b).
Proof.
  unfold wrap.
  replace ((a + 2147483648) `mod` 4294967296 - 2147483648 + b + 2147483648)
    with ((a + 2147483648) `mod` 4294967296 + b) by lia.
  rewrite Zplus_mod_idemp_l. f_equal. f_equal. lia.
Qed.

Lemma wrap_sub (a b : Z) : wrap (wrap a - b) = wrap (a - b).
Proof. rewrite <- !Z.add_opp_r. apply wrap_add. Qed.

(** A count below 2^32 in absolute value is seen as zero only when it is. *)
Lemma wrap_zero (z : Z) : -4294967296 < z < 4294967296 → wrap z = 0 → z = 0.
Proof.
  unfold wrap. intros Hz H0.
  pose proof (Z.div_mod (z + 2147483648) 4294967296).
  pose proof (Z.mod_pos_bound (z + 2147483648) 4294967296).
  assert (((z + 2147483648) `div` 4294967296) = 0 ∨
          ((z + 2147483648) `div` 4294967296) = -1 ∨
          ((z + 2147483648) `div` 4294967296) ≤ -2 ∨
          1 ≤ ((z + 2147483648) `div` 4294967296)) as Hq by lia.
  lia.
Qed.

(** ** Programs: induction and sequencing *)

(** Induction on the programs of one result type; the task of a [Spawn] is
    a program of its own and is left alone. *)
Lemma Prog_ind_at (A : Type) (P : Prog A → Prop) :
  (∀ a, P (Ret a)) →
  P Abort →
  (∀ k, (∀ b, P (k b)) → P (LoadStarted k)) →
  (∀ b k, P k → P (StoreStarted b k)) →
  (∀ k, P k → P (IncCounter k)) →
  (∀ k, (∀ z, P (k z)) → P (DecCounter k)) →
  (∀ k, (∀ z, P (k z)) → P (LoadCounter k)) →
  (∀ k, (∀ b, P (k b)) → P (TestCallback k)) →
  (∀ k, P k → P (CallCallback k)) →
  (∀ task k, P k → P (Spawn task k)) →
  ∀ p, P p.
Proof.
  intros HRet HAbort HLoad HStore HInc HDec HLoadC HTest HCall HSpawn.
  fix IH 1. intros [a| |k|b k|k|k|k|k|k|task k].
  - apply HRet.
  - apply HAbort.
  - apply HLoad. intros b. apply IH.
  - apply HStore. apply IH.
  - apply HInc. apply IH.
  - apply HDec. intros z. apply IH.
  - apply HLoadC. intros z. apply IH.
  - apply HTest. intros b. apply IH.
  - apply HCall. apply IH.
  - apply HSpawn. apply IH.
Qed.

Lemma interp_bind {A B : Type} (me : nat) (p : Prog A) (f : A → Prog B) :
  ∀ d lg tasks,
    interp me (bind p f) d lg tasks =
    match interp me p d lg tasks with
    | Returns a d' lg' tasks' => interp me (f a) d' lg' tasks'
    | AssertionFails => AssertionFails
    | Throws => Throws
    end.
Proof.
  induction p using Prog_ind_at; intros d lg tasks; simpl; auto.
  destruct (callback d); auto.
Qed.

(** [interp] goes by the moves of the program. *)
Lemma interp_move {A : Type} (me : nat) (p : Prog A) (d : Data)
    (lg : list Event) (tasks : list (Prog unit)) :
  interp me p d lg tasks =
  match p, move p d with
  | Ret a, _ => Returns a d lg tasks
  | _, Go op k d' new => interp me k d' ((me, op) :: lg) (tasks ++ new)
  | _, Fail => AssertionFails
  | _, _ => Throws
  end.
Proof.
  destruct p; simpl; rewrite ?app_nil_r; try reflexivity.
  destruct (callback d); simpl; rewrite ?app_nil_r; reflexivity.
Qed.

(** ** Runs of the threads *)

Lemma reaches_step (i : nat) (c c' c'' : Config) :
  thread_step i c = Some c' → reaches c' c'' → reaches c c''.
Proof. intros Hstep Hrest. eapply rtc_l; [exists i; exact Hstep | exact Hrest]. Qed.

Lemma exec_reaches (sched : list nat) : ∀ c, reaches c (exec sched c).
Proof.
  induction sched as [|i sched IH]; intros c; simpl.
  - apply rtc_refl.
  - destruct (thread_step i c) as [c'|] eqn:Hstep; [|apply IH].
    eapply reaches_step; [exact Hstep | apply IH].
Qed.

Lemma insert_middle {A : Type} (l1 l2 : list A) (x y : A) :
  <[length l1 := y]> (l1 ++ x :: l2) = l1 ++ y :: l2.
Proof.
  rewrite insert_app_r_alt by lia. rewrite Nat.sub_diag. reflexivity.
Qed.

Lemma lookup_middle {A : Type} (l1 l2 : list A) (x : A) :
  (l1 ++ x :: l2) !! length l1 = Some x.
Proof. apply list_lookup_middle. reflexivity. Qed.

(** The step of the thread in the middle of a pool. *)
Lemma thread_step_middle (l1 l2 : list (Prog unit)) (p : Prog unit)
    (d : Data) (lg : list Event) :
  thread_step (length l1) (mkConfig d lg false (l1 ++ p :: l2)) =
  match move p d with
  | Halt => None
  | Go op k d' tasks =>
      Some (mkConfig d' ((length l1, op) :: lg) false (l1 ++ k :: l2 ++ tasks))
  | Fail => Some (mkConfig d ((length l1, OpAbort) :: lg) true (l1 ++ p :: l2))
  | Throw =>
      Some (mkConfig d ((length l1, OpThrow) :: lg) false (l1 ++ Ret () :: l2))
  end.
Proof.
  unfold thread_step; simpl. rewrite lookup_middle.
  destruct (move p d); simpl; rewrite ?insert_middle; try reflexivity.
  rewrite <- app_assoc. reflexivity.
Qed.

(** A thread that is given every step until it returns does what its
    program does when run on its own; the tasks it starts join the pool. *)
Lemma thread_runs (p : Prog unit) :
  ∀ l1 l2 d lg d' lg' tasks tasks',
    interp (length l1) p d lg tasks = Returns () d' lg' tasks' →
    reaches (mkConfig d lg false (l1 ++ p :: l2 ++ tasks))
            (mkConfig d' lg' false (l1 ++ Ret () :: l2 ++ tasks')).
Proof.
  induction p as [[]| |k IH|b k IH|k IH|k IH|k IH|k IH|k IH|task k IH]
    using Prog_ind_at;
    intros l1 l2 d lg d' lg' tasks tasks' Hrun; simpl in Hrun;
    try (eapply reaches_step;
         [rewrite thread_step_middle; simpl; rewrite ?app_nil_r; reflexivity
         |eapply IH; exact Hrun]).
  - injection Hrun as -> -> ->. apply rtc_refl.
  - discriminate.
  - destruct (callback d) eqn:Hcb; [|discriminate].
    eapply reaches_step; [|eapply IH; exact Hrun].
    rewrite thread_step_middle; simpl. rewrite Hcb, app_nil_r. reflexivity.
  - eapply reaches_step; [|eapply IH; exact Hrun].
    rewrite thread_step_middle; simpl. rewrite <- app_assoc. reflexivity.
Qed.

(** ** The steps at the program points *)

Lemma move_step_at (pc : StepPc) (d : Data) :
  pc ≠ PcEnd → (pc = PcCall → callback d = true) →
  move (step_at pc) d =
  Go (step_op pc d) (step_at (step_next pc d)) (step_data pc d) [].
Proof.
  intros Hend Hcall. destruct pc; simpl.
  - destruct (counter d =? 0); reflexivity.
  - destruct (started d); reflexivity.
  - destruct (callback d); reflexivity.
  - rewrite Hcall by reflexivity. reflexivity.
  - congruence.
Qed.

Lemma move_main_at (m : MainPc) (d : Data) :
  started d = main_started m →
  m ≠ MStep PcEnd → (m = MStep PcCall → callback d = true) →
  move (main_at m) d =
  Go (main_op m d) (main_at (main_next m d)) (main_data m d)
     (step_at <$> main_tasks m).
Proof.
  intros Hs Hend Hcall. destruct m as [k|k|k| | |pc]; simpl in *.
  - rewrite Hs. reflexivity.
  - reflexivity.
  - destruct k; reflexivity.
  - rewrite Hs. reflexivity.
  - reflexivity.
  - apply move_step_at; [congruence | intros ->; auto].
Qed.

(** ** Counting *)

Lemma sum_insert {A : Type} (g : A → nat) (l : list A) (j : nat) (x y : A) :
  l !! j = Some x →
  (sum_list_with g (<[j := y]> l) + g x = sum_list_with g l + g y)%nat.
Proof.
  revert j. induction l as [|a l IH]; intros [|j] Hj; simpl in *; try discriminate.
  - injection Hj as ->. lia.
  - specialize (IH j Hj). lia.
Qed.

Lemma sum_mono {A : Type} (g h : A → nat) (l : list A) :
  (∀ x, g x ≤ h x)%nat → (sum_list_with g l ≤ sum_list_with h l)%nat.
Proof.
  intros Hgh. induction l as [|a l IH]; simpl; [lia|].
  specialize (Hgh a). lia.
Qed.

Lemma sum_le_length {A : Type} (g : A → nat) (l : list A) :
  (∀ x, g x ≤ 1)%nat → (sum_list_with g l ≤ length l)%nat.
Proof.
  intros Hg. induction l as [|a l IH]; simpl; [lia|].
  specialize (Hg a). lia.
Qed.

Lemma decremented_le (pc : StepPc) : (decremented pc ≤ 1)%nat.
Proof. destruct pc; simpl; lia. Qed.

Lemma in_flight_le (pc : StepPc) : (in_flight pc ≤ decremented pc)%nat.
Proof. destruct pc; simpl; lia. Qed.

Lemma past_flag_le (pc : StepPc) : (past_flag pc ≤ in_flight pc)%nat.
Proof. destruct pc; simpl; lia. Qed.

Lemma calling_le (pc : StepPc) : (calling pc ≤ past_flag pc)%nat.
Proof. destruct pc; simpl; lia. Qed.

Lemma tally_cons (f : Event → bool) (e : Event) (l : list Event) :
  tally f (e :: l) = ((if f e then 1 else 0) + tally f l)%nat.
Proof. reflexivity. Qed.

(** The bounds between the counts of a list of tasks. *)
Lemma counts_bounds (spcs : list StepPc) :
  (sum_list_with decremented spcs ≤ length spcs ∧
   sum_list_with in_flight spcs ≤ sum_list_with decremented spcs ∧
   sum_list_with past_flag spcs ≤ sum_list_with in_flight spcs ∧
   sum_list_with calling spcs ≤ sum_list_with past_flag spcs)%nat.
Proof.
  split; [apply sum_le_length, decremented_le|].
  split; [apply sum_mono, in_flight_le|].
  split; [apply sum_mono, past_flag_le|apply sum_mono, calling_le].
Qed.

Lemma sum_lookup_le {A : Type} (g : A → nat) (l : list A) (j : nat) (x : A) :
  l !! j = Some x → (g x ≤ sum_list_with g l)%nat.
Proof.
  revert j. induction l as [|a l IH]; intros [|j] Hj; simpl in *; try discriminate.
  - injection Hj as ->. lia.
  - specialize (IH j Hj). lia.
Qed.

(** The same bounds for the first thread, and what its decrement tells. *)
Lemma main_bounds (m : MainPc) :
  (main_count decremented m ≤ 1 ∧
   main_count in_flight m ≤ main_count decremented m ∧
   main_count past_flag m ≤ main_count in_flight m ∧
   main_count calling m ≤ main_count past_flag m ∧
   main_incs m ≤ main_left m ∧
   main_incs m + main_count decremented m ≤ 1)%nat ∧
  (main_count decremented m = 1%nat → main_started m = true) ∧
  (main_started m = true → main_left m = 0%nat).
Proof. destruct m as [k|k|k| | |[]]; simpl; repeat split; (lia || congruence). Qed.

(** ** The invariant is kept *)

Ltac counts_at spcs j pc' Hj :=
  pose proof (counts_bounds spcs);
  pose proof (counts_bounds (<[j := pc']> spcs));
  pose proof (length_insert spcs j pc');
  pose proof (sum_insert decremented spcs j _ pc' Hj);
  pose proof (sum_insert in_flight spcs j _ pc' Hj);
  pose proof (sum_insert past_flag spcs j _ pc' Hj);
  pose proof (sum_insert calling spcs j _ pc' Hj).

(** The fields that follow from the old ones by counting. *)
Ltac by_counting :=
  try lia;
  try (intros;
       first [ reflexivity | assumption | congruence
             | match goal with
               | H : _ → started _ = true |- started _ = true => apply H; lia
               | H : _ → callback _ = true |- callback _ = true => apply H; lia
               end ]).

Ltac new_facts :=
  unfold balance, total in *; simpl in *;
  constructor; unfold balance, total; simpl; rewrite ?tally_cons; simpl;
  by_counting.

Lemma facts_task_step (n : nat) (m : MainPc) (spcs : list StepPc) (d : Data)
    (lg : list Event) (j : nat) (pc : StepPc) :
  Facts n m spcs d lg → spcs !! j = Some pc → pc ≠ PcEnd →
  Facts n m (<[j := step_next pc d]> spcs) (step_data pc d)
        ((S j, step_op pc d) :: lg).
Proof.
  intros [Hleft Hctr Hst Hflag Htgt Hmint Hinv Hcl Honce] Hj Hend.
  pose proof (main_bounds m) as (Hm & Hmd & Hms).
  pose proof (sum_lookup_le in_flight spcs j _ Hj) as Hin.
  pose proof (sum_lookup_le past_flag spcs j _ Hj) as Hpast.
  destruct pc; unfold step_next, step_data, step_op; [| | | |congruence].
  - (* the decrement *)
    destruct (counter d =? 0) eqn:Hzero;
      [apply Z.eqb_eq in Hzero; counts_at spcs j PcStarted Hj
      |apply Z.eqb_neq in Hzero; counts_at spcs j PcEnd Hj];
      new_facts;
      try (rewrite Hctr, wrap_sub; f_equal; lia);
      intros Hn; destruct (Honce Hn) as (Hw1 & Hw2 & Hw3).
    + assert (Z.of_nat (main_incs m + length spcs) -
              Z.of_nat (main_count decremented m + sum_list_with decremented spcs) = 0)
        as Hbal by (apply wrap_zero; [lia | congruence]).
      lia.
    + split; [lia|]. split; [lia|]. intros Hcb Hbal'.
      exfalso. apply Hzero. rewrite Hctr.
      replace (Z.of_nat (main_incs m + length spcs) -
               Z.of_nat (main_count decremented m + sum_list_with decremented spcs))
        with 0 by lia.
      reflexivity.
  - (* the flag is read *)
    destruct (started d) eqn:Hs;
      [counts_at spcs j PcTarget Hj | counts_at spcs j PcEnd Hj];
      new_facts; try (rewrite Hctr; f_equal; lia).
    intros Hn; destruct (Honce Hn) as (Hw1 & Hw2 & Hw3).
    assert (main_started m = true) as Hs' by (apply Hmd; lia). congruence.
  - (* the completion is tested *)
    destruct (callback d) eqn:Hcb;
      [counts_at spcs j PcCall Hj | counts_at spcs j PcEnd Hj];
      new_facts; try (rewrite Hctr; f_equal; lia).
    intros Hn; destruct (Honce Hn) as (Hw1 & Hw2 & Hw3).
    split; [lia|]. split; [lia|]. congruence.
  - (* the completion is called *)
    counts_at spcs j PcEnd Hj.
    new_facts; try (rewrite Hctr; f_equal; lia).
Qed.

Lemma facts_main_step (n : nat) (m : MainPc) (spcs : list StepPc) (d : Data)
    (lg : list Event) :
  Facts n m spcs d lg → m ≠ MStep PcEnd →
  Facts n (main_next m d) (spcs ++ main_tasks m) (main_data m d)
        ((0%nat, main_op m d) :: lg).
Proof.
  intros [Hleft Hctr Hst Hflag Htgt Hmint Hinv Hcl Honce] Hend.
  pose proof (counts_bounds spcs) as Hb.
  destruct m as [k|k|k| | |pc]; unfold main_next, main_data, main_op, main_tasks;
    rewrite ?app_nil_r.
  - new_facts.
  - new_facts. rewrite Hctr, wrap_add. f_equal. lia.
  - destruct k; new_facts;
      rewrite ?length_app, ?sum_list_with_app in *; simpl; by_counting;
      try (rewrite Hctr; f_equal; lia).
  - new_facts.
  - new_facts.
  - destruct pc; unfold step_next, step_data, step_op; [| | | |congruence].
    + destruct (counter d =? 0) eqn:Hzero;
        [apply Z.eqb_eq in Hzero | apply Z.eqb_neq in Hzero];
        new_facts; try (rewrite Hctr, wrap_sub; f_equal; lia);
        intros Hn; destruct (Honce Hn) as (Hw1 & Hw2 & Hw3).
      * assert (Z.of_nat (length spcs) -
                Z.of_nat (sum_list_with decremented spcs) = 0)
          as Hbal by (apply wrap_zero; [lia | congruence]).
        lia.
      * split; [lia|]. split; [lia|]. intros Hcb Hbal'.
        exfalso. apply Hzero. rewrite Hctr.
        replace (Z.of_nat (length spcs) -
                 Z.of_nat (sum_list_with decremented spcs))
          with 0 by lia.
        reflexivity.
    + simpl in Hst. rewrite Hst. new_facts.
    + destruct (callback d) eqn:Hcb; new_facts.
      intros Hn; destruct (Honce Hn) as (Hw1 & Hw2 & Hw3).
      split; [lia|]. split; [lia|]. congruence.
    + new_facts.
Qed.

Lemma main_at_of_left (k : nat) : main_at (main_of_left k) = join k.
Proof. destruct k; reflexivity. Qed.

Lemma inv_start (cb : bool) (n : nat) :
  InvAt n (main_of_left n) [] (join_start cb n).
Proof.
  split; [|split].
  - simpl. rewrite main_at_of_left. reflexivity.
  - reflexivity.
  - destruct n; constructor; unfold balance, total; simpl; by_counting.
Qed.

(** The first thread has a step wherever it has not returned. *)
Lemma main_progress (n : nat) (m : MainPc) (spcs : list StepPc) (c : Config) :
  InvAt n m spcs c → m ≠ MStep PcEnd →
  ∃ c', thread_step 0 c = Some c' ∧
        InvAt n (main_next m (data c)) (spcs ++ main_tasks m) c'.
Proof.
  intros (Hpool & Hab & HF) Hend.
  unfold thread_step. rewrite Hab, Hpool. simpl.
  rewrite move_main_at.
  - eexists. split; [reflexivity|]. split; [|split]; simpl.
    + rewrite fmap_app. reflexivity.
    + reflexivity.
    + apply facts_main_step; assumption.
  - apply HF.
  - exact Hend.
  - intros ->. apply HF. unfold total. simpl. lia.
Qed.

(** So has a task. *)
Lemma task_progress (n : nat) (m : MainPc) (spcs : list StepPc) (c : Config)
    (j : nat) (pc : StepPc) :
  InvAt n m spcs c → spcs !! j = Some pc → pc ≠ PcEnd →
  ∃ c', thread_step (S j) c = Some c' ∧
        InvAt n m (<[j := step_next pc (data c)]> spcs) c'.
Proof.
  intros (Hpool & Hab & HF) Hj Hend.
  unfold thread_step. rewrite Hab, Hpool. simpl.
  rewrite list_lookup_fmap, Hj. simpl.
  rewrite move_step_at.
  - eexists. split; [reflexivity|]. split; [|split]; simpl.
    + rewrite app_nil_r, list_fmap_insert. reflexivity.
    + reflexivity.
    + apply facts_task_step; assumption.
  - exact Hend.
  - intros ->. apply HF. unfold total.
    pose proof (sum_lookup_le calling spcs j _ Hj). simpl in *. lia.
Qed.

Lemma inv_step (n i : nat) (c c' : Config) :
  Inv n c → thread_step i c = Some c' → Inv n c'.
Proof.
  intros (m & spcs & HI) Hstep.
  destruct i as [|j].
  - destruct (decide (m = MStep PcEnd)) as [->|Hend].
    + exfalso. destruct HI as (Hpool & Hab & _).
      unfold thread_step in Hstep. rewrite Hab, Hpool in Hstep. discriminate.
    + destruct (main_progress _ _ _ _ HI Hend) as (c1 & Hc1 & HI1).
      rewrite Hc1 in Hstep. injection Hstep as <-. eexists _, _. exact HI1.
  - destruct (spcs !! j) as [pc|] eqn:Hj.
    + destruct (decide (pc = PcEnd)) as [->|Hend].
      * exfalso. destruct HI as (Hpool & Hab & _).
        unfold thread_step in Hstep. rewrite Hab, Hpool in Hstep. simpl in Hstep.
        rewrite list_lookup_fmap, Hj in Hstep. discriminate.
      * destruct (task_progress _ _ _ _ _ _ HI Hj Hend) as (c1 & Hc1 & HI1).
        rewrite Hc1 in Hstep. injection Hstep as <-. eexists _, _. exact HI1.
    + exfalso. destruct HI as (Hpool & Hab & _).
      unfold thread_step in Hstep. rewrite Hab, Hpool in Hstep. simpl in Hstep.
      rewrite list_lookup_fmap, Hj in Hstep. discriminate.
Qed.

Lemma inv_reaches (n : nat) (c c' : Config) :
  Inv n c → reaches c c' → Inv n c'.
Proof.
  intros Hinv Hreach. induction Hreach as [c|c c' c'' [i Hstep] _ IH]; [assumption|].
  apply IH. eapply inv_step; eassumption.
Qed.

(** Every state of the join satisfies the invariant. *)
Lemma join_inv (cb : bool) (n : nat) (c : Config) :
  reaches (join_start cb n) c → Inv n c.
Proof. apply inv_reaches. eexists _, _. apply inv_start. Qed.

(** ** Every run can be completed *)

Lemma step_weight_next (pc : StepPc) (d : Data) :
  pc ≠ PcEnd → (step_weight (step_next pc d) < step_weight pc)%nat.
Proof.
  intros Hend. destruct pc; simpl; try congruence;
    repeat match goal with |- context [if ?b then _ else _] => destruct b end;
    simpl; lia.
Qed.

Lemma weight_main_step (m : MainPc) (d : Data) (spcs : list StepPc) :
  m ≠ MStep PcEnd →
  (weight (main_next m d) (spcs ++ main_tasks m) < weight m spcs)%nat.
Proof.
  intros Hend. unfold weight. rewrite sum_list_with_app.
  destruct m as [k|k|k| | |pc]; simpl; try lia.
  - destruct k; simpl; lia.
  - assert (pc ≠ PcEnd) as Hpc by congruence.
    pose proof (step_weight_next pc d Hpc). lia.
Qed.

Lemma weight_task_step (m : MainPc) (d : Data) (spcs : list StepPc)
    (j : nat) (pc : StepPc) :
  spcs !! j = Some pc → pc ≠ PcEnd →
  (weight m (<[j := step_next pc d]> spcs) < weight m spcs)%nat.
Proof.
  intros Hj Hend. unfold weight.
  pose proof (sum_insert step_weight spcs j pc (step_next pc d) Hj).
  pose proof (step_weight_next pc d Hend). lia.
Qed.

Lemma ended_or_not (spcs : list StepPc) :
  Forall (λ pc, pc = PcEnd) spcs ∨ ∃ j pc, spcs !! j = Some pc ∧ pc ≠ PcEnd.
Proof.
  induction spcs as [|pc spcs [IH|(j & pc' & Hj & Hpc')]].
  - left. constructor.
  - destruct (decide (pc = PcEnd)) as [->|Hpc].
    + left. constructor; auto.
    + right. exists 0%nat, pc. auto.
  - right. exists (S j), pc'. auto.
Qed.

Lemma ended_finished (n : nat) (spcs : list StepPc) (c : Config) :
  InvAt n (MStep PcEnd) spcs c → Forall (λ pc, pc = PcEnd) spcs →
  finished c = true.
Proof.
  intros (Hpool & Hab & _) Hall. unfold finished. rewrite Hab, Hpool. simpl.
  clear Hpool. induction Hall as [|pc spcs -> _ IH]; simpl; auto.
Qed.

Lemma completes (w : nat) :
  ∀ n m spcs c, InvAt n m spcs c → (weight m spcs ≤ w)%nat →
    ∃ c', reaches c c' ∧ finished c' = true.
Proof.
  induction w as [|w IH]; intros n m spcs c HI Hw.
  - assert (m = MStep PcEnd) as ->.
    { destruct (decide (m = MStep PcEnd)) as [|Hend]; [assumption|].
      pose proof (weight_main_step m (data c) spcs Hend). lia. }
    destruct (ended_or_not spcs) as [Hall|(j & pc & Hj & Hpc)].
    + exists c. split; [apply rtc_refl | eapply ended_finished; eassumption].
    + pose proof (weight_task_step (MStep PcEnd) (data c) spcs j pc Hj Hpc). lia.
  - destruct (decide (m = MStep PcEnd)) as [->|Hend].
    + destruct (ended_or_not spcs) as [Hall|(j & pc & Hj & Hpc)].
      * exists c. split; [apply rtc_refl | eapply ended_finished; eassumption].
      * destruct (task_progress _ _ _ _ _ _ HI Hj Hpc) as (c1 & Hc1 & HI1).
        pose proof (weight_task_step (MStep PcEnd) (data c) spcs j pc Hj Hpc).
        destruct (IH _ _ _ _ HI1) as (c' & Hreach & Hfin); [lia|].
        exists c'. split; [eapply reaches_step; eassumption | assumption].
    + destruct (main_progress _ _ _ _ HI Hend) as (c1 & Hc1 & HI1).
      pose proof (weight_main_step m (data c) spcs Hend).
      destruct (IH _ _ _ _ HI1) as (c' & Hreach & Hfin); [lia|].
      exists c'. split; [eapply reaches_step; eassumption | assumption].
Qed.

(** From every state of the join the run can be brought to its end. *)
Lemma join_completes (cb : bool) (n : nat) (c : Config) :
  reaches (join_start cb n) c → ∃ c', reaches c c' ∧ finished c' = true.
Proof.
  intros Hreach. destruct (join_inv cb n c Hreach) as (m & spcs & HI).
  eapply completes; [exact HI | reflexivity].
Qed.

(** ** Reading the pool *)

Lemma returned_step_at (pc : StepPc) : returned (step_at pc) = true → pc = PcEnd.
Proof. destruct pc; simpl; congruence. Qed.

Lemma returned_main_at (m : MainPc) : returned (main_at m) = true → m = MStep PcEnd.
Proof.
  destruct m as [k|k|k| | |pc]; simpl; try congruence.
  intros Hpc. apply returned_step_at in Hpc. congruence.
Qed.

Lemma finished_inv (n : nat) (m : MainPc) (spcs : list StepPc) (c : Config) :
  InvAt n m spcs c → finished c = true →
  m = MStep PcEnd ∧
  sum_list_with decremented spcs = length spcs ∧
  sum_list_with in_flight spcs = 0%nat.
Proof.
  intros (Hpool & Hab & _). unfold finished. rewrite Hab, Hpool. simpl.
  intros Hall. apply andb_true_iff in Hall as [Hmain Htasks].
  split; [apply returned_main_at; assumption|].
  clear Hpool Hmain. induction spcs as [|pc spcs IH]; simpl in *; [auto|].
  apply andb_true_iff in Htasks as [Hpc Htasks].
  apply returned_step_at in Hpc as ->. destruct (IH Htasks) as [-> ->]. auto.
Qed.

(** No operation changes the completion. *)
Lemma thread_step_callback (i : nat) (c c' : Config) :
  thread_step i c = Some c' → callback (data c') = callback (data c).
Proof.
  unfold thread_step. destruct (aborted c); [discriminate|].
  destruct (pool c !! i) as [p|]; [|discriminate].
  destruct p; simpl; try discriminate;
    try (intros [= <-]; reflexivity).
  destruct (callback (data c)) eqn:Hcb; intros [= <-]; simpl; congruence.
Qed.

Lemma reaches_callback (c c' : Config) :
  reaches c c' → callback (data c') = callback (data c).
Proof.
  induction 1 as [c|c c1 c' [i Hstep] _ IH]; [reflexivity|].
  rewrite IH. eapply thread_step_callback; eassumption.
Qed.

(** ** The join fires once *)

(** C1, as far as the counter reaches. For a join over fewer than 2^32
    tasks and a completion that holds a target: in every state of every
    interleaving the completion has been called at most once; when the
    whole run is over it has been called exactly once; and every run can
    be brought to its end. *)
Theorem single_fire (n : nat) (c : Config) :
  Z.of_nat n < 4294967296 →
  reaches (join_start true n) c →
  (fired c ≤ 1)%nat ∧
  (finished c = true → fired c = 1%nat) ∧
  (∃ c', reaches c c' ∧ finished c' = true).
Proof.
  intros Hn Hreach.
  destruct (join_inv true n c Hreach) as (m & spcs & HI).
  pose proof HI as (Hpool & Hab & HF).
  destruct (facts_once _ _ _ _ _ HF Hn) as (Hw1 & Hw2 & Hw3).
  unfold fired. split; [lia|]. split.
  - intros Hfin.
    destruct (finished_inv _ _ _ _ HI Hfin) as (-> & Hdec & Hfl).
    pose proof (reaches_callback _ _ Hreach) as Hcb. simpl in Hcb.
    specialize (Hw3 Hcb).
    unfold balance, total in *. simpl in *. lia.
  - eapply join_completes; eassumption.
Qed.

(** C3, as far as the counter reaches. For a join over fewer than 2^32
    tasks: in every state in which fewer than all of its slots have made
    their decrement the completion has not been called, whether [check()]
    has run or not. *)
Theorem no_fire_before_all_invoked (cb : bool) (n : nat) (c : Config) :
  Z.of_nat n < 4294967296 →
  reaches (join_start cb n) c →
  (invoked c < n)%nat →
  fired c = 0%nat.
Proof.
  intros Hn Hreach Hless.
  destruct (join_inv cb n c Hreach) as (m & spcs & Hpool & Hab & HF).
  destruct (facts_once _ _ _ _ _ HF Hn) as (Hw1 & Hw2 & Hw3).
  pose proof (facts_left _ _ _ _ _ HF) as Hleft.
  pose proof (facts_invoked _ _ _ _ _ HF) as Hinv.
  pose proof (main_bounds m) as (Hm & Hmd & Hms).
  pose proof (counts_bounds spcs) as Hb.
  unfold fired, invoked in *. rewrite Hinv in Hless.
  destruct (tally is_call (log c)) as [|f] eqn:Hf; [reflexivity|exfalso].
  unfold balance, total in *.
  assert (main_count decremented m = 1%nat) as Hmain by lia.
  specialize (Hms (Hmd Hmain)). lia.
Qed.

(** ** More tasks than the counter holds *)

Lemma two32_eq : Z.of_nat two32 = 4294967296.
Proof. unfold two32. apply Z2Nat.id. lia. Qed.

Lemma two31_eq : Z.of_nat two31 = 2147483648.
Proof. unfold two31. apply Z2Nat.id. lia. Qed.

(** One mint by the first thread, while the flag is down. *)
Lemma mint_reaches (cb : bool) (z : Z) (lg : list Event) (r : nat)
    (tasks : list (Prog unit)) :
  reaches (mkConfig (mkData cb (wrap z) false) lg false (join (S r) :: tasks))
          (mkConfig (mkData cb (wrap (z + 1)) false) (log_mints 1 lg) false
                    (join r :: tasks ++ [step])).
Proof.
  eapply (reaches_step 0); [reflexivity|].
  eapply (reaches_step 0); [reflexivity|].
  eapply (reaches_step 0); [reflexivity|].
  simpl. unfold fetch_add, set_counter. simpl. rewrite wrap_add, !app_nil_r.
  apply rtc_refl.
Qed.

Lemma mints_reach (cb : bool) (k : nat) :
  ∀ (z : Z) (lg : list Event) (r : nat) (tasks : list (Prog unit)),
    reaches (mkConfig (mkData cb (wrap z) false) lg false (join (k + r) :: tasks))
            (mkConfig (mkData cb (wrap (z + Z.of_nat k)) false) (log_mints k lg)
                      false (join r :: tasks ++ replicate k step)).
Proof.
  induction k as [|k IH]; intros z lg r tasks.
  - simpl. rewrite Z.add_0_r, app_nil_r. apply rtc_refl.
  - eapply rtc_trans; [apply mint_reaches|].
    replace (z + Z.of_nat (S k)) with (z + 1 + Z.of_nat k) by lia.
    replace (tasks ++ replicate (S k) step)
      with ((tasks ++ [step]) ++ replicate k step)
      by (rewrite <- app_assoc; reflexivity).
    apply IH.
Qed.

Lemma tally_log_mints (f : Event → bool) (k : nat) :
  ∀ lg, tally f (log_mints k lg) =
        (k * tally f [(0%nat, OpSpawn); (0%nat, OpInc); (0%nat, OpLoadStarted false)]
         + tally f lg)%nat.
Proof.
  induction k as [|k IH]; intros lg; simpl; [reflexivity|].
  rewrite IH, !tally_cons. simpl. unfold tally. simpl. lia.
Qed.

(** A slot called while the counter is not 0 only decrements it. *)
Lemma interp_step_nonzero (me : nat) (cb s : bool) (z : Z) (lg : list Event) :
  z ≠ 0 →
  interp me step (mkData cb z s) lg [] =
  Returns () (mkData cb (wrap (z - 1)) s) ((me, OpDec z) :: lg) [].
Proof.
  intros Hz. simpl. apply Z.eqb_neq in Hz. rewrite Hz. reflexivity.
Qed.

Lemma slots_reach (cb s : bool) (k : nat) :
  ∀ (l1 : list (Prog unit)) (z : Z) (lg : list Event) (rest : list (Prog unit)),
    (∀ j : nat, (j < k)%nat → wrap (z - Z.of_nat j) ≠ 0) →
    reaches (mkConfig (mkData cb (wrap z) s) lg false
                      (l1 ++ replicate k step ++ rest))
            (mkConfig (mkData cb (wrap (z - Z.of_nat k)) s)
                      (log_slots k (length l1) (wrap z) lg) false
                      (l1 ++ replicate k (Ret ()) ++ rest)).
Proof.
  induction k as [|k IH]; intros l1 z lg rest Hz.
  - simpl. rewrite Z.sub_0_r. apply rtc_refl.
  - eapply rtc_trans.
    + pose proof (thread_runs step l1 (replicate k step ++ rest)
                    (mkData cb (wrap z) s) lg _ _ [] []
                    (interp_step_nonzero (length l1) cb s (wrap z) lg
                       ltac:(specialize (Hz 0%nat ltac:(lia));
                             rewrite Z.sub_0_r in Hz; exact Hz))) as Hrun.
      rewrite !app_nil_r in Hrun. exact Hrun.
    + rewrite wrap_sub.
      replace (z - Z.of_nat (S k)) with (z - 1 - Z.of_nat k) by lia.
      replace (l1 ++ Ret () :: replicate k step ++ rest)
        with ((l1 ++ [Ret ()]) ++ replicate k step ++ rest)
        by (rewrite <- app_assoc; reflexivity).
      replace (l1 ++ replicate (S k) (Ret ()) ++ rest)
        with ((l1 ++ [Ret ()]) ++ replicate k (Ret ()) ++ rest)
        by (rewrite <- app_assoc; reflexivity).
      replace (log_slots (S k) (length l1) (wrap z) lg)
        with (log_slots k (length (l1 ++ [Ret ()])) (wrap (z - 1))
                        ((length l1, OpDec (wrap z)) :: lg)).
      * apply IH. intros j Hj. specialize (Hz (S j) ltac:(lia)).
        replace (z - 1 - Z.of_nat j) with (z - Z.of_nat (S j)) by lia. exact Hz.
      * simpl. rewrite length_app, wrap_sub. simpl.
        replace (length l1 + 1)%nat with (S (length l1)) by lia. reflexivity.
Qed.

Lemma tally_log_slots (f : Event → bool) (k : nat) :
  (∀ i z, f (i, OpDec z) = false) →
  ∀ i z lg, tally f (log_slots k i z lg) = tally f lg.
Proof.
  intros Hf. induction k as [|k IH]; intros i z lg; simpl; [reflexivity|].
  rewrite IH, tally_cons, Hf. reflexivity.
Qed.

Lemma forallb_returned_replicate (k : nat) :
  forallb returned (replicate k (Ret ())) = true.
Proof. induction k; simpl; auto. Qed.

(** The first thread mints all [k] slots before any task runs. *)
Lemma all_minted (cb : bool) (k : nat) :
  reaches (join_start cb k)
          (mkConfig (mkData cb (wrap (Z.of_nat k)) false) (log_mints k []) false
                    (check :: replicate k step)).
Proof.
  pose proof (mints_reach cb k 0 [] 0%nat []) as Hrun.
  rewrite Nat.add_0_r, Z.add_0_l in Hrun. exact Hrun.
Qed.

(** When the counter stands at 0 again after [k] mints, [check()] calls the
    completion though no slot has been invoked. *)
Lemma check_after_wrapped_mints (k : nat) :
  wrap (Z.of_nat k) = 0 →
  reaches (join_start true k)
          (mkConfig (mkData true (-1) true)
                    ((0%nat, OpCall) :: (0%nat, OpTest true) ::
                     (0%nat, OpLoadStarted true) :: (0%nat, OpDec 0) ::
                     (0%nat, OpStoreStarted true) :: (0%nat, OpLoadStarted false) ::
                     log_mints k [])
                    false (Ret () :: replicate k step)).
Proof.
  intros Hk. eapply rtc_trans; [apply all_minted|]. rewrite Hk.
  pose proof (thread_runs check [] (replicate k step) (mkData true 0 false)
                (log_mints k []) _ _ [] [] eq_refl) as Hrun.
  rewrite !app_nil_r in Hrun. exact Hrun.
Qed.

(** The counterexample to C1 as stated: with 2^32 tasks, [check()] finds
    the counter at 0 and calls the completion, and so does the last slot. *)
Lemma single_fire_beyond_counter :
  ∃ c, reaches (join_start true two32) c ∧ finished c = true ∧ fired c = 2%nat.
Proof.
  pose proof two32_eq as HK. generalize dependent two32. intros K HK.
  assert (wrap (Z.of_nat K) = 0) as Hwrap by (rewrite HK; reflexivity).
  destruct K as [|k]; [discriminate|].
  pose proof (check_after_wrapped_mints (S k) Hwrap) as Hrun1.
  set (lg2 := (0%nat, OpCall) :: _) in Hrun1.
  pose proof (slots_reach true true k [Ret ()] (-1) lg2 [step]) as Hrun2.
  assert (wrap (-1 - Z.of_nat k) = 0) as Hlast.
  { replace (-1 - Z.of_nat k) with (-4294967296) by lia. reflexivity. }
  rewrite Hlast in Hrun2.
  pose proof (thread_runs step ([Ret ()] ++ replicate k (Ret ())) []
                (mkData true 0 true)
                (log_slots k (length [Ret () : Prog unit]) (wrap (-1)) lg2)
                _ _ [] [] eq_refl) as Hrun3.
  eexists. split; [|split].
  - eapply rtc_trans; [exact Hrun1|].
    eapply rtc_trans; [|exact Hrun3].
    replace (Ret () :: replicate (S k) step)
      with ([Ret ()] ++ replicate k step ++ [step]).
    + rewrite app_nil_r, <- app_assoc. apply Hrun2.
      intros j Hj Hzero. apply wrap_zero in Hzero; lia.
    + simpl. f_equal. change (step :: replicate k step) with (replicate (S k) step).
      rewrite replicate_S_end. reflexivity.
  - unfold finished. simpl. rewrite forallb_app, forallb_returned_replicate.
    reflexivity.
  - unfold fired. simpl.
    rewrite tally_log_slots by reflexivity.
    unfold lg2. rewrite !tally_cons. simpl.
    rewrite tally_log_mints. unfold tally. simpl. lia.
Qed.

(** The counterexample to C3 as stated: with 2^32 tasks the completion is
    called by [check()] before any slot has been invoked. *)
Lemma fire_before_any_slot :
  ∃ c, reaches (join_start true two32) c ∧
       (1 ≤ two32)%nat ∧ (invoked c < two32)%nat ∧ fired c = 1%nat.
Proof.
  pose proof two32_eq as HK. generalize dependent two32. intros K HK.
  assert (wrap (Z.of_nat K) = 0) as Hwrap by (rewrite HK; reflexivity).
  eexists. split; [apply (check_after_wrapped_mints K Hwrap)|].
  unfold invoked, fired. simpl. rewrite !tally_log_mints.
  unfold tally. simpl. lia.
Qed.

(** ** The counter *)

Lemma sum_pos_lookup {A : Type} (g : A → nat) (l : list A) :
  (1 ≤ sum_list_with g l)%nat → ∃ j x, l !! j = Some x ∧ (1 ≤ g x)%nat.
Proof.
  induction l as [|a l IH]; simpl; [lia|]. intros Hsum.
  destruct (decide (1 ≤ g a)%nat) as [Ha|Ha].
  - exists 0%nat, a. auto.
  - destruct IH as (j & x & Hj & Hx); [lia|]. exists (S j), x. auto.
Qed.

(** C9, as far as [int] reaches and with the thread that is about to call.
    For a join over at most [int_max] tasks and a completion that holds a
    target, in every state: the counter is the mints less the slots
    invoked less the decrement of [check()]; the completion has been
    called only if the counter is -1; when the counter is -1 the completion
    has been called or the thread whose decrement found 0 is on its way to
    the call; and when the run is over the counter rests at -1, the
    completion called. *)
Theorem counter_invariant (n : nat) (c : Config) :
  Z.of_nat n ≤ int_max →
  reaches (join_start true n) c →
  counter (data c) =
    Z.of_nat (minted c) - Z.of_nat (invoked c) - Z.of_nat (closed c) ∧
  (fired c = 1%nat → counter (data c) = -1) ∧
  (counter (data c) = -1 →
   fired c = 1%nat ∨
   ∃ i pc, in_flight pc = 1%nat ∧ pool c !! i = Some (step_at pc)) ∧
  (finished c = true → counter (data c) = -1 ∧ fired c = 1%nat).
Proof.
  intros Hn Hreach. unfold int_max in Hn.
  destruct (join_inv true n c Hreach) as (m & spcs & HI).
  pose proof HI as (Hpool & Hab & HF).
  destruct HF as [Hleft Hctr Hst Hflag Htgt Hmint Hinv Hcl Honce].
  destruct Honce as (Hw1 & Hw2 & Hw3); [lia|].
  pose proof (reaches_callback _ _ Hreach) as Hcb. simpl in Hcb.
  specialize (Hw3 Hcb).
  pose proof (main_bounds m) as (Hm & Hmd & Hms).
  pose proof (counts_bounds spcs) as Hb.
  unfold minted, invoked, closed, fired. rewrite Hmint, Hinv, Hcl.
  unfold balance, total in *.
  assert (counter (data c) =
          Z.of_nat (main_incs m + length spcs) -
          Z.of_nat (main_count decremented m + sum_list_with decremented spcs))
    as Heq.
  { rewrite Hctr. apply wrap_small. unfold int_min, int_max. lia. }
  split; [lia|]. split; [lia|]. split.
  - intros Hminus.
    destruct (tally is_call (log c)) as [|f]; [right|left; lia].
    assert (1 ≤ main_count in_flight m + sum_list_with in_flight spcs)%nat
      as Hin by lia.
    destruct (decide (1 ≤ main_count in_flight m)%nat) as [Hmain|Hmain].
    + destruct m as [k|k|k| | |pc]; simpl in Hmain; try lia.
      exists 0%nat, pc. rewrite Hpool. split; [|reflexivity].
      destruct pc; simpl in *; lia.
    + destruct (sum_pos_lookup in_flight spcs) as (j & pc & Hj & Hpc); [lia|].
      exists (S j), pc. rewrite Hpool. simpl. rewrite list_lookup_fmap, Hj.
      split; [|reflexivity]. destruct pc; simpl in *; lia.
  - intros Hfin.
    destruct (finished_inv _ _ _ _ HI Hfin) as (-> & Hdec & Hfl).
    simpl in *. lia.
Qed.

(** The counterexample to C9 as stated. With 2^31 tasks minted the counter
    is not the number of mints; and with no task the counter is -1 when
    [check()] has made its decrement and not yet its call. *)
Lemma counter_invariant_fails :
  (∃ c, reaches (join_start true two31) c ∧
        counter (data c) ≠
          Z.of_nat (minted c) - Z.of_nat (invoked c) - Z.of_nat (closed c)) ∧
  (∃ c, reaches (join_start true 0) c ∧
        counter (data c) = -1 ∧ fired c = 0%nat).
Proof.
  split.
  - pose proof two31_eq as HK. generalize dependent two31. intros K HK.
    eexists. split; [apply (all_minted true K)|].
    unfold minted, invoked, closed. simpl. rewrite !tally_log_mints, HK.
    unfold tally. simpl. rewrite Nat.mul_1_r, !Nat.mul_0_r. simpl.
    rewrite Nat.add_0_r, HK. discriminate.
  - exists (exec [0; 0; 0]%nat (join_start true 0)).
    split; [apply exec_reaches|]. split; reflexivity.
Qed.

(** ** The decrement that finds 0 *)

Lemma step_at_dec (pc : StepPc) (k : Z → Prog unit) :
  step_at pc = DecCounter k → pc = PcDec.
Proof.
  destruct pc; simpl; intros Heq; first [reflexivity | discriminate Heq].
Qed.

Lemma main_at_dec (m : MainPc) (k : Z → Prog unit) :
  main_at m = DecCounter k → m = MStep PcDec.
Proof.
  destruct m as [j|j|j| | |pc]; simpl; intros Heq; try discriminate Heq.
  apply step_at_dec in Heq. congruence.
Qed.

Lemma step_at_inj (pc pc' : StepPc) : step_at pc = step_at pc' → pc = pc'.
Proof.
  destruct pc, pc'; simpl; intros Heq; first [reflexivity | discriminate Heq].
Qed.

(** The flag test of [step] is no other point of the first thread: the
    tests of [mint] and [check] go on differently when the flag is down. *)
Lemma main_at_started (m : MainPc) :
  main_at m = step_at PcStarted → m = MStep PcStarted.
Proof.
  destruct m as [j|j|j| | |pc]; simpl; intros Heq; try discriminate Heq.
  - injection Heq as Heq. apply (f_equal (λ k, k false)) in Heq. discriminate Heq.
  - injection Heq as Heq. apply (f_equal (λ k, k false)) in Heq. discriminate Heq.
  - f_equal. apply step_at_inj. exact Heq.
Qed.

(** C10, as far as the counter reaches. For a join over fewer than 2^32
    tasks, in every state: a thread whose next operation is the decrement
    finds 0 only if [check()] has set the flag; and a thread at the flag
    test of [step], which it reaches by finding 0, reads the flag set, so
    that with a completion that holds a target it goes on to call it. *)
Theorem winner_after_close (cb : bool) (n : nat) (c : Config) (i : nat) :
  Z.of_nat n < 4294967296 →
  reaches (join_start cb n) c →
  (∀ k, pool c !! i = Some (DecCounter k) → counter (data c) = 0 →
        started (data c) = true) ∧
  (pool c !! i = Some (step_at PcStarted) →
   started (data c) = true ∧
   (cb = true →
    interp i (step_at PcStarted) (data c) (log c) [] =
    Returns () (data c)
            ((i, OpCall) :: (i, OpTest true) :: (i, OpLoadStarted true) :: log c)
            [])).
Proof.
  intros Hn Hreach.
  destruct (join_inv cb n c Hreach) as (m & spcs & Hpool & Hab & HF).
  destruct HF as [Hleft Hctr Hst Hflag Htgt Hmint Hinv Hcl Honce].
  destruct (Honce Hn) as (Hw1 & Hw2 & Hw3).
  pose proof (main_bounds m) as (Hm & Hmd & Hms).
  pose proof (counts_bounds spcs) as Hb.
  pose proof (reaches_callback _ _ Hreach) as Hcb. simpl in Hcb.
  unfold balance, total in *. rewrite Hpool. split.
  - intros k Hi Hzero. rewrite Hst.
    assert (Z.of_nat (main_incs m + length spcs) -
            Z.of_nat (main_count decremented m + sum_list_with decremented spcs) = 0)
      as Hbal by (apply wrap_zero; [lia | congruence]).
    destruct i as [|j]; simpl in Hi.
    + injection Hi as Hi. apply main_at_dec in Hi as ->. reflexivity.
    + rewrite list_lookup_fmap in Hi.
      destruct (spcs !! j) as [pc|] eqn:Hj; [|discriminate]. simpl in Hi.
      injection Hi as Hi. apply step_at_dec in Hi as ->.
      pose proof (sum_insert decremented spcs j PcDec PcEnd Hj) as Hins.
      pose proof (counts_bounds (<[j := PcEnd]> spcs)) as Hb'.
      rewrite length_insert in Hb'. simpl in Hins.
      apply Hmd. lia.
  - intros Hi.
    assert (started (data c) = true) as Hs.
    { rewrite Hst. destruct i as [|j]; simpl in Hi.
      - injection Hi as Hi. apply (main_at_started m) in Hi as ->. reflexivity.
      - rewrite list_lookup_fmap in Hi.
        destruct (spcs !! j) as [pc|] eqn:Hj; [|discriminate]. simpl in Hi.
        injection Hi as Hi. apply (step_at_inj pc PcStarted) in Hi as ->.
        pose proof (sum_lookup_le in_flight spcs j _ Hj) as Hin. simpl in Hin.
        apply Hmd. lia. }
    split; [exact Hs|]. intros ->. simpl. rewrite Hs. simpl.
    rewrite Hcb. simpl. rewrite Hcb. reflexivity.
Qed.

(** The counterexample to C10 as stated: with 2^32 tasks minted, the first
    slot finds the counter at 0 while the flag is still down, and its flag
    test makes it return without the call. *)
Lemma zero_seen_before_flag :
  ∃ c c' c'',
    reaches (join_start true two32) c ∧ started (data c) = false ∧
    thread_step 1 c = Some c' ∧ log c' = (1%nat, OpDec 0) :: log c ∧
    thread_step 1 c' = Some c'' ∧ pool c'' !! 1%nat = Some (Ret ()) ∧
    fired c'' = 0%nat.
Proof.
  pose proof two32_eq as HK. generalize dependent two32. intros K HK.
  assert (wrap (Z.of_nat K) = 0) as Hwrap by (rewrite HK; reflexivity).
  destruct K as [|k]; [discriminate|].
  eexists _, _, _. split; [apply (all_minted true (S k))|].
  rewrite Hwrap. simpl.
  split; [reflexivity|]. split; [reflexivity|]. split; [reflexivity|].
  split; [reflexivity|]. split; [reflexivity|].
  unfold fired. simpl. rewrite tally_log_mints. unfold tally. simpl. lia.
Qed.

(** ** [step] *)

(** C2, as the code has it. A call of [step] run on its own decrements the
    counter and calls the completion exactly when the value before the
    decrement is 0 (the value after it -1), the flag is set and the
    completion holds a target. *)
Theorem step_fires_on_old_zero (me : nat) (d : Data) (lg : list Event)
    (tasks : list (Prog unit)) :
  ∃ lg',
    interp me step d lg tasks = Returns () (fetch_sub d) lg' tasks ∧
    tally is_call lg' =
      (tally is_call lg +
       (if (counter d =? 0)%Z && started d && callback d then 1 else 0))%nat ∧
    counter (fetch_sub (set_counter 0 d)) = -1.
Proof.
  simpl. destruct (counter d =? 0); simpl;
    [destruct (started d); simpl; [destruct (callback d) eqn:Hcb; simpl; rewrite ?Hcb|]|];
    eexists; (split; [reflexivity|]); rewrite ?tally_cons; simpl;
    (split; [lia | reflexivity]).
Qed.

(** The counterexample to C2 as stated. One task, and [check()] runs before
    its slot: the flag is set and the decrement of [check()] takes the
    counter from 1 to 0, a value after the decrement that is ≤ 0, and the
    completion is not called. *)
Lemma post_decrement_zero_does_not_fire :
  let c := exec [0; 0; 0; 0; 0]%nat (join_start true 1) in
  pool c !! 0%nat = Some step ∧
  started (data c) = true ∧ counter (data c) = 1 ∧
  ∃ d' lg',
    interp 0 step (data c) (log c) [] = Returns () d' lg' [] ∧
    counter d' = 0 ∧ started d' = true ∧ tally is_call lg' = 0%nat.
Proof.
  simpl. split; [reflexivity|]. split; [reflexivity|]. split; [reflexivity|].
  eexists _, _. split; [reflexivity|]. split; [reflexivity|].
  split; reflexivity.
Qed.

(** ** [check] *)

Lemma main_at_check (m : MainPc) : main_at m = check → m = MCheck.
Proof.
  destruct m as [j|j|j| | |pc]; simpl; intros Heq; try discriminate Heq.
  - injection Heq as Heq. apply (f_equal (λ k, k false)) in Heq. discriminate Heq.
  - reflexivity.
  - destruct pc; try discriminate Heq.
    injection Heq as Heq. apply (f_equal (λ k, k false)) in Heq. discriminate Heq.
Qed.

Lemma all_returned_counts (spcs : list StepPc) (n : nat) :
  step_at <$> spcs = replicate n (Ret ()) →
  length spcs = n ∧ sum_list_with decremented spcs = length spcs.
Proof.
  revert n. induction spcs as [|pc spcs IH]; intros [|n] Heq; simpl in *;
    try discriminate; [auto|].
  injection Heq as Hpc Heq.
  apply (step_at_inj pc PcEnd) in Hpc as ->.
  destruct (IH n Heq) as [-> ->]. auto.
Qed.

(** C4. [check()] on a handle not yet closed is the store of the flag
    followed by one call of [step], the call a slot makes. In a join over
    [n] tasks whose slots have all returned when [check()] begins (with
    [n = 0] the handle on which no slot was minted) the completion has not
    been called before, and [check()] itself calls it: it finds the counter
    at 0, leaves it at -1, and the run is over. *)
Theorem check_is_flag_then_step :
  (∀ me d lg tasks,
     started d = false →
     interp me check d lg tasks =
     interp me step (set_started true d)
            ((me, OpStoreStarted true) :: (me, OpLoadStarted false) :: lg) tasks) ∧
  (∀ n c,
     reaches (join_start true n) c →
     pool c = check :: replicate n (Ret ()) →
     fired c = 0%nat ∧
     ∃ c', interp 0 check (data c) (log c) [] =
           Returns () (data c') (log c') [] ∧
           data c' = mkData true (-1) true ∧
           log c' = (0%nat, OpCall) :: (0%nat, OpTest true) ::
                    (0%nat, OpLoadStarted true) :: (0%nat, OpDec 0) ::
                    (0%nat, OpStoreStarted true) ::
                    (0%nat, OpLoadStarted false) :: log c ∧
           reaches c c' ∧ finished c' = true ∧ fired c' = 1%nat).
Proof.
  split.
  - intros me d lg tasks Hs. simpl. rewrite Hs. reflexivity.
  - intros n c Hreach Hshape.
    destruct (join_inv true n c Hreach) as (m & spcs & Hpool & Hab & HF).
    rewrite Hpool in Hshape. injection Hshape as Hmain Htasks.
    apply main_at_check in Hmain as ->.
    pose proof Htasks as Hret.
    apply all_returned_counts in Htasks as [Hlen Hdec].
    destruct HF as [Hleft Hctr Hst Hflag Htgt Hmint Hinv Hcl Honce].
    pose proof (counts_bounds spcs) as Hb.
    pose proof (reaches_callback _ _ Hreach) as Hcb. simpl in Hcb.
    unfold balance, total in *. simpl in *.
    replace (Z.of_nat (length spcs) - Z.of_nat (sum_list_with decremented spcs))
      with 0 in Hctr by lia.
    change (wrap 0) with 0 in Hctr.
    assert (fired c = 0%nat) as Hfired.
    { unfold fired. destruct (tally is_call (log c)); [reflexivity|].
      rewrite Hflag in Hst by lia. discriminate. }
    split; [exact Hfired|].
    destruct c as [[cb z s] lg ab pl]. simpl in *. subst.
    eexists (mkConfig _ _ false (Ret () :: replicate (length spcs) (Ret ()))).
    simpl. split; [reflexivity|]. split; [reflexivity|]. split; [reflexivity|].
    split; [|split].
    + pose proof (thread_runs check [] (replicate (length spcs) (Ret ()))
                    (mkData true 0 false) lg _ _ [] [] eq_refl) as Hrun.
      rewrite !app_nil_r in Hrun. rewrite Hret. exact Hrun.
    + unfold finished. simpl. apply forallb_returned_replicate.
    + unfold fired in *. simpl in *. lia.
Qed.

(** ** [run] *)

Lemma call_operator_fan_out (ss : list Starter) :
  ∀ s, call_operator (s :: ss) = Some (fan_out (s :: ss)).
Proof.
  induction ss as [|s' ss IH]; intros s; [reflexivity|].
  change (call_operator (s :: s' :: ss))
    with (rest ← call_operator (s' :: ss);
          Some (do slot <- mint; do _ <- s slot; rest)).
  rewrite IH. reflexivity.
Qed.

Lemma interp_mint (me : nat) (d : Data) (lg : list Event)
    (tasks : list (Prog unit)) :
  interp me mint d lg tasks =
  if started d then AssertionFails
  else Returns step (fetch_add d)
               ((me, OpInc) :: (me, OpLoadStarted false) :: lg) tasks.
Proof. simpl. destruct (started d); reflexivity. Qed.

(** The counterexample to C5 as stated: [run] with a completion and no
    starter is no call at all, no overload of [operator()] takes it. *)
Lemma run_without_starters : run true [] = None.
Proof. reflexivity. Qed.

(** C5, as the code has it. [run] takes one starter at least: with none the
    call does not resolve, whatever the completion. The join without slots
    is the handle closed at once: [check()] on a fresh handle over a
    completion that holds a target calls the completion exactly once and
    has done so when it returns. *)
Theorem zero_slot_join :
  (∀ cb, run cb [] = None) ∧
  (∀ cb s, run cb [s] =
           Some (ParallelCallbackData cb, do slot <- mint; do _ <- s slot; check)) ∧
  ∃ lg,
    interp 0 check (ParallelCallbackData true) [] [] =
    Returns () (mkData true (-1) true) lg [] ∧
    tally is_call lg = 1%nat.
Proof.
  split; [reflexivity|]. split; [reflexivity|].
  eexists. split; reflexivity.
Qed.

(** C6. For a completion and one starter or more, [run] constructs one
    [ParallelCallbackData] over the completion and runs the program of the
    specification, [fan_out]: as long as a starter is left, the thread
    mints one slot, which increments the counter by one, calls the starter
    with that slot and goes on with the rest when the starter has
    returned; with no starter left it calls [check()]. *)
Theorem run_fans_out (cb : bool) (s : Starter) (ss : list Starter) :
  run cb (s :: ss) = Some (ParallelCallbackData cb, fan_out (s :: ss)) ∧
  fan_out [] = check ∧
  (∀ s' ss' me d lg tasks,
     started d = false →
     interp me (fan_out (s' :: ss')) d lg tasks =
     match interp me (s' step) (fetch_add d)
                  ((me, OpInc) :: (me, OpLoadStarted false) :: lg) tasks with
     | Returns _ d' lg' tasks' => interp me (fan_out ss') d' lg' tasks'
     | AssertionFails => AssertionFails
     | Throws => Throws
     end) ∧
  (∀ d, counter (fetch_add d) = wrap (counter d + 1)).
Proof.
  split; [|split; [reflexivity|split; [|reflexivity]]].
  - unfold run. rewrite call_operator_fan_out. reflexivity.
  - intros s' ss' me d lg tasks Hs.
    change (fan_out (s' :: ss'))
      with (do slot <- mint; do _ <- s' slot; fan_out ss').
    rewrite interp_bind, interp_mint, Hs, interp_bind. reflexivity.
Qed.

(** The two programs of the source are the join over two tasks. *)
Lemma startTwoTasks_join (callback : bool) :
  startTwoTasks2 = join 2 ∧
  startTwoTasks3 callback = Some (ParallelCallbackData callback, join 2).
Proof. split; reflexivity. Qed.

(** The first thread of [startTwoTasks] run on its own: two mints, each
    followed by the start of its task, then [check()], whose decrement
    finds 2. *)
Example startTwoTasks_alone :
  interp 0 (join 2) (ParallelCallbackData true) [] [] =
  Returns () (mkData true 1 true)
          [(0%nat, OpDec 2); (0%nat, OpStoreStarted true);
           (0%nat, OpLoadStarted false);
           (0%nat, OpSpawn); (0%nat, OpInc); (0%nat, OpLoadStarted false);
           (0%nat, OpSpawn); (0%nat, OpInc); (0%nat, OpLoadStarted false)]
          [step; step].
Proof. reflexivity. Qed.

(** ** The assertions *)

Lemma step_at_not_abort (pc : StepPc) : step_at pc ≠ Abort.
Proof. destruct pc; discriminate. Qed.

Lemma main_at_not_abort (m : MainPc) : main_at m ≠ Abort.
Proof. destruct m as [j|j|j| | |pc]; try discriminate. apply step_at_not_abort. Qed.

(** [step] leaves the flag as it is. *)
Lemma interp_step_started (me : nat) (d : Data) (lg : list Event)
    (tasks : list (Prog unit)) (d' : Data) (lg' : list Event)
    (tasks' : list (Prog unit)) :
  interp me step d lg tasks = Returns () d' lg' tasks' → started d' = started d.
Proof.
  simpl. destruct (counter d =? 0); simpl;
    [destruct (started d) eqn:Hs; simpl; [destruct (callback d) eqn:Hcb; simpl; rewrite ?Hcb|]|];
    intros [= <- _ _]; simpl; congruence.
Qed.

(** C7. Once [check()] has returned, the flag is set, and from then on a
    mint fails its assertion and so does a second [check()], by whatever
    thread. And in every state of a join, where the mints precede the one
    [check()], no assertion has failed and no thread is at a failed one. *)
Theorem assertions_guard_the_contract :
  (∀ me d lg tasks d' lg' tasks',
     interp me check d lg tasks = Returns () d' lg' tasks' →
     started d' = true ∧
     ∀ me' lg'' tasks'',
       interp me' mint d' lg'' tasks'' = AssertionFails ∧
       interp me' check d' lg'' tasks'' = AssertionFails) ∧
  (∀ cb n c,
     reaches (join_start cb n) c →
     aborted c = false ∧ ∀ i, pool c !! i ≠ Some Abort).
Proof.
  split.
  - intros me d lg tasks d' lg' tasks' Hcheck.
    assert (started d' = true) as Hs.
    { simpl in Hcheck. destruct (started d); [discriminate|]. simpl in Hcheck.
      change (interp me step (set_started true d)
                ((me, OpStoreStarted true) :: (me, OpLoadStarted false) :: lg)
                tasks = Returns () d' lg' tasks') in Hcheck.
      apply interp_step_started in Hcheck. exact Hcheck. }
    split; [exact Hs|]. intros me' lg'' tasks''.
    rewrite interp_mint. simpl. rewrite Hs. split; reflexivity.
  - intros cb n c Hreach.
    destruct (join_inv cb n c Hreach) as (m & spcs & Hpool & Hab & HF).
    split; [exact Hab|]. intros i. rewrite Hpool. destruct i as [|j]; simpl.
    + intros [= Heq]. exact (main_at_not_abort m Heq).
    + rewrite list_lookup_fmap. destruct (spcs !! j) as [pc|]; simpl; [|discriminate].
      intros [= Heq]. exact (step_at_not_abort pc Heq).
Qed.

(** ** The theorems at work *)

Lemma single_fire_witness :
  Z.of_nat 2 < 4294967296 ∧ reaches (join_start true 2) run2 ∧
  ((fired run2 ≤ 1)%nat ∧
   (finished run2 = true → fired run2 = 1%nat) ∧
   (∃ c', reaches run2 c' ∧ finished c' = true)).
Proof.
  split; [lia|]. split; [apply exec_reaches|].
  apply (single_fire 2 run2); [lia | apply exec_reaches].
Defined.

Lemma no_fire_before_all_invoked_witness :
  let c := exec [0; 0; 0; 1; 0; 0; 0; 0; 0; 0]%nat (join_start true 2) in
  Z.of_nat 2 < 4294967296 ∧ reaches (join_start true 2) c ∧
  (invoked c < 2)%nat ∧ closed c = 1%nat ∧ fired c = 0%nat.
Proof.
  intros c. split; [lia|]. split; [apply exec_reaches|].
  split; [vm_compute; lia|]. split; [reflexivity|].
  apply (no_fire_before_all_invoked true 2);
    [lia | apply exec_reaches | vm_compute; lia].
Defined.

Lemma counter_invariant_witness :
  Z.of_nat 2 ≤ int_max ∧ reaches (join_start true 2) run2 ∧
  (counter (data run2) =
     Z.of_nat (minted run2) - Z.of_nat (invoked run2) - Z.of_nat (closed run2) ∧
   (fired run2 = 1%nat → counter (data run2) = -1) ∧
   (counter (data run2) = -1 →
    fired run2 = 1%nat ∨
    ∃ i pc, in_flight pc = 1%nat ∧ pool run2 !! i = Some (step_at pc)) ∧
   (finished run2 = true → counter (data run2) = -1 ∧ fired run2 = 1%nat)).
Proof.
  split; [unfold int_max; lia|]. split; [apply exec_reaches|].
  apply (counter_invariant 2 run2); [unfold int_max; lia | apply exec_reaches].
Defined.

Lemma winner_after_close_witness :
  let c := exec [0; 0; 0; 0; 0; 0]%nat (join_start true 1) in
  let c' := exec [1]%nat c in
  Z.of_nat 1 < 4294967296 ∧
  pool c !! 1%nat = Some step ∧ counter (data c) = 0 ∧ started (data c) = true ∧
  pool c' !! 1%nat = Some (step_at PcStarted) ∧ started (data c') = true ∧
  interp 1 (step_at PcStarted) (data c') (log c') [] =
  Returns () (data c')
          ((1%nat, OpCall) :: (1%nat, OpTest true) :: (1%nat, OpLoadStarted true) ::
           log c') [].
Proof.
  intros c c'.
  split; [lia|]. split; [reflexivity|]. split; [reflexivity|].
  split.
  - apply (proj1 (winner_after_close true 1 c 1 ltac:(lia) (exec_reaches _ _))
             _ eq_refl eq_refl).
  - split; [reflexivity|].
    destruct (proj2 (winner_after_close true 1 c' 1 ltac:(lia)
                       (exec_reaches [0; 0; 0; 0; 0; 0; 1]%nat (join_start true 1)))
                eq_refl) as [Hs Hcall].
    split; [exact Hs | exact (Hcall eq_refl)].
Defined.

Lemma check_is_flag_then_step_witness :
  let c := exec [0; 0; 0; 1; 0; 0; 0; 2]%nat (join_start true 2) in
  started (ParallelCallbackData true) = false ∧
  interp 0 check (ParallelCallbackData true) [] [] =
  interp 0 step (set_started true (ParallelCallbackData true))
         [(0%nat, OpStoreStarted true); (0%nat, OpLoadStarted false)] [] ∧
  pool c = check :: replicate 2 (Ret ()) ∧
  fired c = 0%nat ∧
  ∃ c', interp 0 check (data c) (log c) [] = Returns () (data c') (log c') [] ∧
        data c' = mkData true (-1) true ∧ finished c' = true ∧ fired c' = 1%nat.
Proof.
  intros c. split; [reflexivity|].
  split; [apply (proj1 check_is_flag_then_step); reflexivity|].
  split; [reflexivity|].
  destruct (proj2 check_is_flag_then_step 2%nat c (exec_reaches _ _) eq_refl)
    as (Hfired & c' & Hrun & Hdata & _ & _ & Hfin & Hone).
  split; [exact Hfired|]. exists c'. auto.
Defined.

Lemma run_fans_out_witness :
  run true [startTaskOne; startTaskTwo] =
    Some (ParallelCallbackData true, fan_out [startTaskOne; startTaskTwo]) ∧
  started (ParallelCallbackData true) = false ∧
  interp 0 (fan_out [startTaskOne; startTaskTwo]) (ParallelCallbackData true) [] [] =
  match interp 0 (startTaskOne step) (fetch_add (ParallelCallbackData true))
               [(0%nat, OpInc); (0%nat, OpLoadStarted false)] [] with
  | Returns _ d' lg' tasks' => interp 0 (fan_out [startTaskTwo]) d' lg' tasks'
  | AssertionFails => AssertionFails
  | Throws => Throws
  end.
Proof.
  destruct (run_fans_out true startTaskOne [startTaskTwo]) as (Hrun & _ & Hgo & _).
  split; [exact Hrun|]. split; [reflexivity|].
  apply Hgo. reflexivity.
Defined.

Lemma assertions_guard_the_contract_witness :
  let closed_data := mkData true (-1) true in
  interp 0 check (ParallelCallbackData true) [] [] =
    Returns () closed_data
            [(0%nat, OpCall); (0%nat, OpTest true); (0%nat, OpLoadStarted true);
             (0%nat, OpDec 0); (0%nat, OpStoreStarted true);
             (0%nat, OpLoadStarted false)] [] ∧
  interp 0 mint closed_data [] [] = AssertionFails ∧
  interp 0 check closed_data [] [] = AssertionFails ∧
  aborted run2 = false ∧ pool run2 !! 0%nat ≠ Some Abort.
Proof.
  intros closed_data. split; [reflexivity|].
  destruct (proj1 assertions_guard_the_contract 0%nat (ParallelCallbackData true)
              [] [] closed_data _ [] eq_refl) as [_ Hfail].
  destruct (Hfail 0%nat [] []) as [Hmint Hcheck].
  destruct (proj2 assertions_guard_the_contract true 2%nat run2 (exec_reaches _ _))
    as [Hab Hpool].
  split; [exact Hmint|]. split; [exact Hcheck|]. split; [exact Hab | apply Hpool].
Defined.

(** ** What a step of the join adds to the record *)

(** A step of the join keeps the invariant, adds one operation of the
    thread to the record, neither a failed assertion nor a call of an
    empty function, and takes from the operations left. *)
Lemma inv_step_at (n : nat) (m : MainPc) (spcs : list StepPc) (i : nat)
    (c c' : Config) :
  InvAt n m spcs c → thread_step i c = Some c' →
  ∃ m' spcs' op,
    InvAt n m' spcs' c' ∧ log c' = (i, op) :: log c ∧
    is_throw (i, op) = false ∧ is_abort (i, op) = false ∧
    (weight m' spcs' < weight m spcs)%nat.
Proof.
  intros HI Hstep. pose proof HI as (Hpool & Hab & HF).
  unfold thread_step in Hstep. rewrite Hab, Hpool in Hstep.
  destruct i as [|j]; simpl in Hstep.
  - destruct (decide (m = MStep PcEnd)) as [->|Hend]; [discriminate|].
    rewrite move_main_at in Hstep.
    + injection Hstep as <-.
      exists (main_next m (data c)), (spcs ++ main_tasks m), (main_op m (data c)).
      split; [|split; [reflexivity|split; [|split]]].
      * split; [|split]; simpl;
          [rewrite fmap_app; reflexivity | reflexivity
          |apply facts_main_step; assumption].
      * destruct m as [k|k|k| | |[]]; reflexivity.
      * destruct m as [k|k|k| | |[]]; reflexivity.
      * apply weight_main_step. exact Hend.
    + apply HF.
    + exact Hend.
    + intros ->. apply HF. unfold total. simpl. lia.
  - rewrite list_lookup_fmap in Hstep.
    destruct (spcs !! j) as [pc|] eqn:Hj; simpl in Hstep; [|discriminate].
    destruct (decide (pc = PcEnd)) as [->|Hend]; [discriminate|].
    rewrite move_step_at in Hstep.
    + injection Hstep as <-.
      exists m, (<[j := step_next pc (data c)]> spcs), (step_op pc (data c)).
      split; [|split; [reflexivity|split; [|split]]].
      * split; [|split]; simpl;
          [rewrite app_nil_r, list_fmap_insert; reflexivity | reflexivity
          |apply facts_task_step; assumption].
      * destruct pc; reflexivity.
      * destruct pc; reflexivity.
      * apply weight_task_step; assumption.
    + exact Hend.
    + intros ->. apply HF. unfold total.
      pose proof (sum_lookup_le calling spcs j _ Hj). simpl in *. lia.
Qed.

(** A completion is called only where it holds a target. *)
Lemma thread_step_fired (i : nat) (c c' : Config) :
  thread_step i c = Some c' → callback (data c) = false → fired c' = fired c.
Proof.
  unfold thread_step, fired. destruct (aborted c); [discriminate|].
  destruct (pool c !! i) as [p|]; [|discriminate].
  intros Hstep Hcb.
  destruct p; simpl in Hstep; rewrite ?Hcb in Hstep; try discriminate;
    injection Hstep as <-; reflexivity.
Qed.

(** ** Never before [check()] *)

(** X1. In every state of a join over any number of tasks in which the
    completion has been called, [check()] has set the flag and all the
    slots have been minted: the completion never runs while a starter is
    still to be given its slot. *)
Theorem fires_only_after_close (cb : bool) (n : nat) (c : Config) :
  reaches (join_start cb n) c →
  (1 ≤ fired c)%nat →
  started (data c) = true ∧ minted c = n.
Proof.
  intros Hreach Hfired.
  destruct (join_inv cb n c Hreach) as (m & spcs & Hpool & Hab & HF).
  destruct HF as [Hleft Hctr Hst Hflag Htgt Hmint Hinv Hcl Honce].
  pose proof (main_bounds m) as (Hm & Hmd & Hms).
  unfold fired, minted in *.
  assert (started (data c) = true) as Hs by (apply Hflag; lia).
  split; [exact Hs|].
  rewrite Hs in Hst. symmetry in Hst. specialize (Hms Hst). lia.
Qed.

(** ** An empty completion *)

(** X2. In every state of a join no assertion has failed and no empty
    function has been called, whatever the completion: [step] tests
    [data->callback] before the call. Over an empty completion nothing is
    ever called. *)
Theorem join_never_throws (cb : bool) (n : nat) (c : Config) :
  reaches (join_start cb n) c →
  thrown c = 0%nat ∧ tally is_abort (log c) = 0%nat ∧
  (cb = false → fired c = 0%nat).
Proof.
  revert c. apply rtc_ind_r.
  - repeat split.
  - intros c c' Hreach [i Hstep] IH.
    destruct (join_inv cb n c Hreach) as (m & spcs & HI).
    destruct (inv_step_at _ _ _ _ _ _ HI Hstep)
      as (m' & spcs' & op & _ & Hlog & Hthrow & Habort & _).
    destruct IH as (IHthrow & IHabort & IHfired).
    unfold thrown in *. rewrite Hlog, !tally_cons, Hthrow, Habort.
    split; [exact IHthrow|]. split; [exact IHabort|].
    intros ->. rewrite (thread_step_fired _ _ _ Hstep); [auto|].
    apply (reaches_callback _ _ Hreach).
Qed.

(** ** The length of a run *)

Lemma inv_nsteps (n k : nat) (c c' : Config) :
  nsteps sched_step k c c' →
  ∀ m spcs, InvAt n m spcs c →
    ∃ m' spcs', InvAt n m' spcs' c' ∧ (weight m' spcs' + k ≤ weight m spcs)%nat.
Proof.
  induction 1 as [c|k c c1 c' [i Hstep] _ IH]; intros m spcs HI.
  - exists m, spcs. split; [exact HI | lia].
  - destruct (inv_step_at _ _ _ _ _ _ HI Hstep)
      as (m1 & spcs1 & op & HI1 & _ & _ & _ & Hless).
    destruct (IH _ _ HI1) as (m' & spcs' & HI' & Hle).
    exists m', spcs'. split; [exact HI' | lia].
Qed.

Lemma weight_start (n : nat) : weight (main_of_left n) [] = (7 * n + 6)%nat.
Proof. destruct n; unfold weight; simpl; lia. Qed.

(** X3. A join over [n] tasks is over after at most [7 * n + 6] atomic
    operations, whatever the interleaving; and as long as a thread has not
    returned, some thread has a step: no run hangs, none goes on forever. *)
Theorem join_runs_out (cb : bool) (n k : nat) (c : Config) :
  nsteps sched_step k (join_start cb n) c →
  (k ≤ 7 * n + 6)%nat ∧
  (finished c = false → ∃ i c', thread_step i c = Some c').
Proof.
  intros Hsteps.
  destruct (inv_nsteps n k _ _ Hsteps _ _ (inv_start cb n))
    as (m & spcs & HI & Hle).
  rewrite weight_start in Hle. split; [lia|]. intros Hnot.
  destruct (decide (m = MStep PcEnd)) as [->|Hend].
  - destruct (ended_or_not spcs) as [Hall|(j & pc & Hj & Hpc)].
    + rewrite (ended_finished _ _ _ HI Hall) in Hnot. discriminate.
    + destruct (task_progress _ _ _ _ _ _ HI Hj Hpc) as (c' & Hc' & _).
      exists (S j), c'. exact Hc'.
  - destruct (main_progress _ _ _ _ HI Hend) as (c' & Hc' & _).
    exists 0%nat, c'. exact Hc'.
Qed.

(** ** The range of the counter *)

(** X4. For a join over at most [int_max] tasks the counter never leaves
    the range from -1 to the number of slots minted so far, itself at most
    the number of tasks; and it is not negative before [check()] has made
    its decrement. *)
Theorem counter_bounds (cb : bool) (n : nat) (c : Config) :
  Z.of_nat n ≤ int_max →
  reaches (join_start cb n) c →
  -1 ≤ counter (data c) ≤ Z.of_nat (minted c) ∧
  (minted c ≤ n)%nat ∧
  (closed c = 0%nat → 0 ≤ counter (data c)).
Proof.
  intros Hn Hreach. unfold int_max in Hn.
  destruct (join_inv cb n c Hreach) as (m & spcs & Hpool & Hab & HF).
  destruct HF as [Hleft Hctr Hst Hflag Htgt Hmint Hinv Hcl Honce].
  pose proof (main_bounds m) as (Hm & Hmd & Hms).
  pose proof (counts_bounds spcs) as Hb.
  unfold minted, closed. rewrite Hmint, Hcl.
  unfold balance, total in *.
  assert (counter (data c) =
          Z.of_nat (main_incs m + length spcs) -
          Z.of_nat (main_count decremented m + sum_list_with decremented spcs))
    as Heq.
  { rewrite Hctr. apply wrap_small. unfold int_min, int_max. lia. }
  lia.
Qed.

(** ** Calls one after the other *)

Lemma interp_step_calls (me : nat) (d : Data) (lg : list Event)
    (tasks : list (Prog unit)) :
  ∃ lg',
    interp me step d lg tasks = Returns () (fetch_sub d) lg' tasks ∧
    tally is_call lg' =
      (tally is_call lg +
       (if (counter d =? 0)%Z && started d && callback d then 1 else 0))%nat.
Proof.
  simpl. destruct (counter d =? 0); simpl;
    [destruct (started d); simpl; [destruct (callback d) eqn:Hcb; simpl; rewrite ?Hcb|]|];
    eexists; (split; [reflexivity|]); rewrite ?tally_cons; simpl; lia.
Qed.

Lemma fetch_sub_fetch_add (d : Data) :
  int_min ≤ counter d ≤ int_max → fetch_sub (fetch_add d) = d.
Proof.
  intros Hrange. destruct d as [cb z s]. unfold fetch_sub, fetch_add, set_counter.
  simpl in *. rewrite wrap_sub. f_equal.
  replace (z + 1 - 1) with z by lia. apply wrap_small. exact Hrange.
Qed.

(** X5. A slot minted and called while the handle is open leaves the data
    as they were and calls nothing: the decrement of the slot takes back
    the increment of its mint, and the flag is down. *)
Theorem mint_then_invoke (me : nat) (d : Data) (lg : list Event)
    (tasks : list (Prog unit)) :
  started d = false →
  int_min ≤ counter d ≤ int_max →
  ∃ lg',
    interp me (do slot <- mint; slot) d lg tasks = Returns () d lg' tasks ∧
    tally is_call lg' = tally is_call lg.
Proof.
  intros Hs Hrange. rewrite interp_bind, interp_mint, Hs.
  destruct (interp_step_calls me (fetch_add d)
              ((me, OpInc) :: (me, OpLoadStarted false) :: lg) tasks)
    as (lg' & Hrun & Hcalls).
  exists lg'. rewrite Hrun, fetch_sub_fetch_add by exact Hrange.
  split; [reflexivity|]. rewrite Hcalls, !tally_cons. simpl.
  rewrite Hs, andb_false_r. simpl. lia.
Qed.

(** X6. [k] calls of slots in a row on a closed handle over a completion
    that holds a target, the counter at [z] and the [k] decrements within
    [int]: the counter ends at [z - k], and the completion is called
    exactly once if [0 <= z < k], by the call that finds 0, and not at all
    otherwise. Calls beyond that one, as of a slot called twice, do not
    call the completion again. *)
Theorem slots_called_in_a_row (k : nat) :
  ∀ (me : nat) (d : Data) (lg : list Event),
    started d = true → callback d = true →
    int_min ≤ counter d - Z.of_nat k → counter d ≤ int_max →
    ∃ lg',
      interp me (calls_of_step k) d lg [] =
      Returns () (set_counter (counter d - Z.of_nat k) d) lg' [] ∧
      tally is_call lg' =
        (tally is_call lg +
         (if (0 <=? counter d)%Z && (counter d <? Z.of_nat k)%Z then 1 else 0))%nat.
Proof.
  induction k as [|k IH]; intros me d lg Hs Hcb Hlow Hhigh.
  - exists lg. split.
    + destruct d as [cb z s]. simpl. unfold set_counter. simpl.
      rewrite Z.sub_0_r. reflexivity.
    + destruct (Z.leb_spec 0 (counter d)), (Z.ltb_spec (counter d) (Z.of_nat 0));
        simpl; lia.
  - change (calls_of_step (S k)) with (do _ <- step; calls_of_step k).
    rewrite interp_bind.
    destruct (interp_step_calls me d lg []) as (lg1 & Hrun & Hcalls).
    rewrite Hrun.
    assert (counter (fetch_sub d) = counter d - 1) as Hctr.
    { simpl. apply wrap_small. unfold int_min, int_max in *. lia. }
    destruct (IH me (fetch_sub d) lg1) as (lg' & Hrest & Hcalls');
      [exact Hs | exact Hcb | rewrite Hctr; lia | rewrite Hctr; lia |].
    exists lg'. split.
    + rewrite Hrest. f_equal. rewrite Hctr.
      destruct d as [cb z s]. unfold set_counter, fetch_sub. simpl. f_equal. lia.
    + rewrite Hcalls', Hcalls, Hctr, Hs, Hcb.
      destruct (Z.eqb_spec (counter d) 0), (Z.leb_spec 0 (counter d)),
        (Z.ltb_spec (counter d) (Z.of_nat (S k))),
        (Z.leb_spec 0 (counter d - 1)),
        (Z.ltb_spec (counter d - 1) (Z.of_nat k)); simpl; lia.
Qed.

(** ** Starters whose work is done at once *)

Lemma interp_instant_starter (me : nat) (rest : Prog unit) (lg : list Event) :
  interp me (do slot <- mint; do _ <- callNow slot; rest)
         (mkData true 0 false) lg [] =
  interp me rest (mkData true 0 false)
         ((me, OpDec 1) :: (me, OpInc) :: (me, OpLoadStarted false) :: lg) [].
Proof. reflexivity. Qed.

Lemma interp_instant_starters (me n : nat) :
  ∀ lg, tally is_call lg = 0%nat → tally found_zero lg = 0%nat →
    ∃ lg',
      interp me (fan_out (replicate n callNow)) (mkData true 0 false) lg [] =
      Returns () (mkData true (-1) true)
              ((me, OpCall) :: (me, OpTest true) :: (me, OpLoadStarted true) ::
               (me, OpDec 0) :: (me, OpStoreStarted true) ::
               (me, OpLoadStarted false) :: lg') [] ∧
      tally is_call lg' = 0%nat ∧ tally found_zero lg' = 0%nat.
Proof.
  induction n as [|n IH]; intros lg Hlg Hzero.
  - exists lg. split; [reflexivity | split; assumption].
  - change (fan_out (replicate (S n) callNow))
      with (do slot <- mint; do _ <- callNow slot; fan_out (replicate n callNow)).
    rewrite interp_instant_starter.
    apply IH; rewrite !tally_cons; simpl; assumption.
Qed.

(** X7. [run] over a completion that holds a target and any number of
    starters, one at least, each of which calls its slot before it
    returns: the completion is called exactly once, and by [check()], as
    the last operation of the call of [run]; no slot finds the counter at
    0, however many starters there are. *)
Theorem run_with_instant_starters (n : nat) :
  run true (replicate (S n) callNow) =
    Some (ParallelCallbackData true, fan_out (replicate (S n) callNow)) ∧
  ∃ lg,
    interp 0 (fan_out (replicate (S n) callNow)) (ParallelCallbackData true) [] [] =
    Returns () (mkData true (-1) true)
            ((0%nat, OpCall) :: (0%nat, OpTest true) :: (0%nat, OpLoadStarted true) ::
             (0%nat, OpDec 0) :: (0%nat, OpStoreStarted true) ::
             (0%nat, OpLoadStarted false) :: lg) [] ∧
    tally is_call lg = 0%nat ∧ tally found_zero lg = 0%nat.
Proof.
  split.
  - unfold run. simpl replicate. rewrite call_operator_fan_out. reflexivity.
  - apply (interp_instant_starters 0 (S n) []); reflexivity.
Qed.

(** ** parallel_test_1 in every interleaving *)

Lemma move_task_at (pc : TaskPc) (d : Data) :
  pc ≠ TEnd →
  move (task_at pc) d =
  match pc, callback d with
  | TCall, false => Throw
  | _, _ => Go (task_op pc d) (task_at (task_next pc d)) (task_data pc d) []
  end.
Proof.
  intros Hend. destruct pc; simpl; [| | |congruence];
    destruct (callback d);
    repeat match goal with |- context [if ?b then _ else _] => destruct b end;
    reflexivity.
Qed.

Lemma facts1_task_step (cb : bool) (left : nat) (tpcs : list TaskPc) (d : Data)
    (lg : list Event) (j : nat) (pc : TaskPc) :
  Facts1 cb left tpcs d lg → tpcs !! j = Some pc → pc ≠ TEnd →
  Facts1 cb left (<[j := task_next pc d]> tpcs) (task_data pc d)
         ((S j, task_op pc d) :: lg).
Proof.
  intros [Hleft Hcb Hctr Hends Hnz Hkind] Hj Hend.
  pose proof (length_insert tpcs j (task_next pc d)) as Hlen.
  pose proof (sum_insert undecremented tpcs j pc (task_next pc d) Hj) as Hu.
  pose proof (sum_insert loading tpcs j pc (task_next pc d) Hj) as Hl.
  pose proof (sum_insert about_to_call tpcs j pc (task_next pc d) Hj) as Ha.
  pose proof (sum_lookup_le loading tpcs j pc Hj) as Hin.
  destruct pc; unfold task_next, task_data, task_op in *; simpl in *;
    [| | |congruence].
  - constructor; rewrite ?tally_cons; simpl; try lia; try assumption.
    rewrite Hctr. rewrite wrap_small by (unfold int_min, int_max; lia). lia.
  - assert (∀ e, e = (S j, OpLoadCounter (counter d)) → counter d ≠ 0 →
                 is_load_nonzero e = true) as Hread.
    { intros e -> Hne. unfold is_load_nonzero. simpl.
      destruct (Z.eqb_spec (counter d) 0); [contradiction | reflexivity]. }
    destruct (Z.eqb_spec (counter d) 0) as [Hzero|Hzero]; simpl in *;
      constructor; rewrite ?tally_cons; simpl; rewrite ?Hzero; simpl;
      try lia; try assumption; try (destruct cb; assumption);
      rewrite (Hread _ eq_refl Hzero); lia.
  - destruct cb; rewrite Hcb; simpl;
      constructor; rewrite ?tally_cons; simpl; try lia; try assumption.
Qed.

Lemma facts1_main_step (cb : bool) (left : nat) (tpcs : list TaskPc) (d : Data)
    (lg : list Event) :
  Facts1 cb (S left) tpcs d lg →
  Facts1 cb left (tpcs ++ [TDec]) d ((0%nat, OpSpawn) :: lg).
Proof.
  intros [Hleft Hcb Hctr Hends Hnz Hkind].
  constructor; rewrite ?tally_cons, ?length_app, ?sum_list_with_app; simpl;
    try lia; assumption.
Qed.

Lemma move_starter_at (left : nat) (d : Data) :
  (left < 2)%nat →
  move (starter_at (S left)) d = Go OpSpawn (starter_at left) d [Test1.parallel].
Proof. intros Hleft. destruct left as [|[|left]]; [reflexivity|reflexivity|lia]. Qed.

Lemma inv1_start (cb : bool) : Inv1 cb (Test1.main_start cb).
Proof.
  exists 2%nat, []. split; [reflexivity|]. split; [reflexivity|].
  constructor; simpl; try reflexivity; try lia. destruct cb; reflexivity.
Qed.

Lemma inv1_step (cb : bool) (i : nat) (c c' : Config) :
  Inv1 cb c → thread_step i c = Some c' → Inv1 cb c'.
Proof.
  intros (left & tpcs & Hpool & Hab & HF) Hstep.
  unfold thread_step in Hstep. rewrite Hab, Hpool in Hstep.
  destruct i as [|j]; simpl in Hstep.
  - destruct left as [|left]; [discriminate|].
    rewrite move_starter_at in Hstep
      by (pose proof (facts1_left _ _ _ _ _ HF); lia).
    injection Hstep as <-. exists left, (tpcs ++ [TDec]). simpl.
    split; [rewrite fmap_app; reflexivity|]. split; [reflexivity|].
    apply facts1_main_step. exact HF.
  - rewrite list_lookup_fmap in Hstep.
    destruct (tpcs !! j) as [pc|] eqn:Hj; simpl in Hstep; [|discriminate].
    destruct (decide (pc = TEnd)) as [->|Hend]; [discriminate|].
    rewrite move_task_at in Hstep by exact Hend.
    pose proof (facts1_task_step _ _ _ _ _ _ _ HF Hj Hend) as HF'.
    exists left, (<[j := task_next pc (data c)]> tpcs).
    destruct pc; [| | |congruence];
      destruct (callback (data c)) eqn:Hcb; simpl in Hstep;
      injection Hstep as <-; simpl;
      (split; [rewrite ?app_nil_r, list_fmap_insert; reflexivity|]);
      (split; [reflexivity|]);
      unfold task_op, task_next, task_data in HF'; rewrite ?Hcb in HF';
      rewrite ?Hcb; exact HF'.
Qed.

Lemma inv1_reaches (cb : bool) (c : Config) :
  reaches (Test1.main_start cb) c → Inv1 cb c.
Proof.
  revert c. apply rtc_ind_r; [apply inv1_start|].
  intros c c' _ [i Hstep] IH. eapply inv1_step; eassumption.
Qed.

Lemma returned_task_at (pc : TaskPc) : returned (task_at pc) = true → pc = TEnd.
Proof. destruct pc; simpl; congruence. Qed.

Lemma returned_starter_at (left : nat) :
  returned (starter_at left) = true → (left = 0)%nat.
Proof. destruct left as [|[|left]]; simpl; congruence. Qed.

(** X8. parallel_test_1 with its two tasks in any interleaving, when the
    run is over: a task has ended without the call only by reading the
    counter other than 0, and at most one task has; so the completion has
    been called once or twice, never not at all, and twice exactly when
    neither task read the counter other than 0. Over an empty callback the
    calls are throws of [std::bad_function_call] instead: the lambda does
    not test the callback. *)
Theorem parallel_test_1_calls (cb : bool) (c : Config) :
  reaches (Test1.main_start cb) c →
  finished c = true →
  ((if cb then fired c else thrown c) + tally is_load_nonzero (log c))%nat = 2%nat ∧
  (tally is_load_nonzero (log c) ≤ 1)%nat ∧
  (if cb then thrown c else fired c) = 0%nat.
Proof.
  intros Hreach Hfin.
  destruct (inv1_reaches cb c Hreach) as (left & tpcs & Hpool & Hab & HF).
  unfold finished in Hfin. rewrite Hab, Hpool in Hfin. simpl in Hfin.
  apply andb_true_iff in Hfin as [Hmain Htasks].
  apply returned_starter_at in Hmain as ->.
  assert (sum_list_with undecremented tpcs = 0 ∧ sum_list_with loading tpcs = 0 ∧
          sum_list_with about_to_call tpcs = 0)%nat as (Hu & Hl & Ha).
  { clear -Htasks. induction tpcs as [|pc tpcs IH]; simpl in *; [auto|].
    apply andb_true_iff in Htasks as [Hpc Htasks].
    apply returned_task_at in Hpc as ->. simpl. apply IH. exact Htasks. }
  destruct HF as [Hleft Hcb Hctr Hends Hnz Hkind].
  unfold fired, thrown. destruct cb; lia.
Qed.

Lemma parallel_test_1_calls_witness :
  finished test1_in_turn = true ∧ fired test1_in_turn = 1%nat ∧
  tally is_load_nonzero (log test1_in_turn) = 1%nat ∧
  finished test1_at_once = true ∧
  (fired test1_at_once + tally is_load_nonzero (log test1_at_once))%nat = 2%nat ∧
  (fired test1_in_turn + tally is_load_nonzero (log test1_in_turn))%nat = 2%nat.
Proof.
  split; [reflexivity|]. split; [reflexivity|]. split; [reflexivity|].
  split; [reflexivity|]. split.
  - apply (parallel_test_1_calls true test1_at_once (exec_reaches _ _) eq_refl).
  - apply (parallel_test_1_calls true test1_in_turn (exec_reaches _ _) eq_refl).
Defined.

(** ** Slots that are dropped *)

Lemma interp_starters (me : nat) (bs : list bool) :
  ∀ (z : Z) (lg : list Event),
    0 ≤ z → z + Z.of_nat (dropped bs) < int_max →
    ∃ lg',
      interp me (fan_out (starter_of <$> bs)) (mkData true z false) lg [] =
      Returns () (mkData true (z + Z.of_nat (dropped bs) - 1) true) lg' [] ∧
      tally is_call lg' =
        (tally is_call lg + (if (z + Z.of_nat (dropped bs) =? 0)%Z then 1 else 0))%nat.
Proof.
  induction bs as [|b bs IH]; intros z lg Hz Hmax; unfold int_max in *.
  - unfold dropped in *. simpl in *. rewrite Z.add_0_r.
    assert (wrap (z - 1) = z - 1) as Hwrap
      by (apply wrap_small; unfold int_min, int_max; lia).
    unfold fetch_sub, set_counter, set_started. simpl. rewrite Hwrap.
    destruct (z =? 0); simpl; eexists; (split; [reflexivity|]);
      rewrite ?tally_cons; simpl; lia.
  - change (fan_out (starter_of <$> b :: bs))
      with (do slot <- mint; do _ <- starter_of b slot; fan_out (starter_of <$> bs)).
    rewrite interp_bind, interp_mint. simpl started. cbv iota.
    rewrite interp_bind.
    assert (wrap (z + 1) = z + 1) as Hup.
    { apply wrap_small. unfold int_min, int_max, dropped in *. simpl in *.
      destruct b; lia. }
    destruct b; unfold dropped in *; simpl in *.
    + unfold fetch_add, fetch_sub, set_counter. simpl. rewrite Hup.
      destruct (Z.eqb_spec (z + 1) 0) as [Hzero|_]; [lia|]. simpl.
      replace (wrap (z + 1 - 1)) with z
        by (replace (z + 1 - 1) with z by lia; symmetry; apply wrap_small;
            unfold int_min, int_max; lia).
      destruct (IH z ((me, OpDec (z + 1)) :: (me, OpInc) ::
                      (me, OpLoadStarted false) :: lg) Hz Hmax)
        as (lg' & Hrun & Hcalls).
      exists lg'. split; [exact Hrun|]. rewrite Hcalls, !tally_cons. simpl. lia.
    + unfold fetch_add, set_counter. simpl. rewrite Hup.
      destruct (IH (z + 1) ((me, OpInc) :: (me, OpLoadStarted false) :: lg))
        as (lg' & Hrun & Hcalls); [lia | lia |].
      exists lg'. split.
      * rewrite Hrun. f_equal. f_equal. lia.
      * rewrite Hcalls, !tally_cons. simpl.
        repeat match goal with
               | |- context [Z.eqb ?a ?b] => destruct (Z.eqb_spec a b)
               end; lia.
Qed.

(** X9. [run] over a completion that holds a target and starters each of
    which either calls its slot before it returns or drops it, with the
    slots dropped fewer than [int_max]: when [run] returns the counter is the
    number of slots dropped less one, and the completion has been called,
    once, exactly when no slot was dropped. A slot that is never called
    keeps the completion from ever being called by [run]. *)
Theorem run_fires_iff_no_slot_dropped (b : bool) (bs : list bool) :
  Z.of_nat (dropped (b :: bs)) < int_max →
  run true (starter_of <$> b :: bs) =
    Some (ParallelCallbackData true, fan_out (starter_of <$> b :: bs)) ∧
  ∃ lg,
    interp 0 (fan_out (starter_of <$> b :: bs)) (ParallelCallbackData true) [] [] =
    Returns () (mkData true (Z.of_nat (dropped (b :: bs)) - 1) true) lg [] ∧
    tally is_call lg = (if (dropped (b :: bs) =? 0)%nat then 1 else 0)%nat.
Proof.
  intros Hmax. split.
  - unfold run. rewrite fmap_cons, call_operator_fan_out. reflexivity.
  - destruct (interp_starters 0 (b :: bs) 0 []) as (lg & Hrun & Hcalls);
      [lia | rewrite Z.add_0_l; exact Hmax |].
    exists lg. split; [exact Hrun|]. rewrite Hcalls, Z.add_0_l.
    change (tally is_call []) with 0%nat.
    destruct (Nat.eqb_spec (dropped (b :: bs)) 0),
      (Z.eqb_spec (Z.of_nat (dropped (b :: bs))) 0); lia.
Qed.

(** ** The further theorems at work *)

Lemma fires_only_after_close_witness :
  reaches (join_start true 2) run2 ∧ (1 ≤ fired run2)%nat ∧
  started (data run2) = true ∧ minted run2 = 2%nat.
Proof.
  split; [apply exec_reaches|]. split; [vm_compute; lia|].
  apply (fires_only_after_close true 2 run2); [apply exec_reaches | vm_compute; lia].
Defined.

Lemma join_never_throws_witness :
  let c := exec [0; 0; 0; 1; 0; 0; 0; 0; 0; 0; 2; 2; 2; 2]%nat (join_start false 2) in
  finished c = true ∧ counter (data c) = -1 ∧
  thrown c = 0%nat ∧ tally is_abort (log c) = 0%nat ∧ fired c = 0%nat.
Proof.
  intros c. split; [reflexivity|]. split; [reflexivity|].
  destruct (join_never_throws false 2 c (exec_reaches _ _)) as (Hthrow & Habort & Hfired).
  split; [exact Hthrow|]. split; [exact Habort | exact (Hfired eq_refl)].
Defined.

Lemma join_runs_out_witness :
  let c := exec [0; 0; 0]%nat (join_start true 1) in
  finished c = false ∧ (3 ≤ 7 * 1 + 6)%nat ∧ ∃ i c', thread_step i c = Some c'.
Proof.
  intros c. split; [reflexivity|].
  assert (nsteps sched_step 3 (join_start true 1) c) as Hsteps.
  { eapply nsteps_l; [exists 0%nat; reflexivity|].
    eapply nsteps_l; [exists 0%nat; reflexivity|].
    eapply nsteps_l; [exists 0%nat; reflexivity|].
    apply nsteps_O. }
  destruct (join_runs_out true 1 3 c Hsteps) as [Hle Hstep].
  split; [exact Hle | exact (Hstep eq_refl)].
Defined.

Lemma counter_bounds_witness :
  Z.of_nat 2 ≤ int_max ∧ closed (minted2 true) = 0%nat ∧
  -1 ≤ counter (data (minted2 true)) ≤ Z.of_nat (minted (minted2 true)) ∧
  (minted (minted2 true) ≤ 2)%nat ∧ 0 ≤ counter (data (minted2 true)).
Proof.
  split; [unfold int_max; lia|]. split; [reflexivity|].
  destruct (counter_bounds true 2 (minted2 true) ltac:(unfold int_max; lia)
              (exec_reaches _ _)) as (Hrange & Hminted & Hopen).
  split; [exact Hrange|]. split; [exact Hminted | exact (Hopen eq_refl)].
Defined.

Lemma mint_then_invoke_witness :
  started (ParallelCallbackData true) = false ∧
  int_min ≤ counter (ParallelCallbackData true) ≤ int_max ∧
  ∃ lg',
    interp 0 (do slot <- mint; slot) (ParallelCallbackData true) [] [] =
    Returns () (ParallelCallbackData true) lg' [] ∧
    tally is_call lg' = tally is_call [].
Proof.
  split; [reflexivity|]. split; [unfold int_min, int_max; simpl; lia|].
  apply (mint_then_invoke 0 (ParallelCallbackData true) [] []);
    [reflexivity | unfold int_min, int_max; simpl; lia].
Defined.

Lemma slots_called_in_a_row_witness :
  let d := mkData true 1 true in
  started d = true ∧ callback d = true ∧
  int_min ≤ counter d - Z.of_nat 3 ∧ counter d ≤ int_max ∧
  ∃ lg',
    interp 0 (calls_of_step 3) d [] [] =
    Returns () (set_counter (counter d - Z.of_nat 3) d) lg' [] ∧
    tally is_call lg' =
      (tally is_call [] +
       (if (0 <=? counter d)%Z && (counter d <? Z.of_nat 3)%Z then 1 else 0))%nat.
Proof.
  intros d. split; [reflexivity|]. split; [reflexivity|].
  split; [unfold int_min; simpl; lia|]. split; [unfold int_max; simpl; lia|].
  apply (slots_called_in_a_row 3 0%nat d []);
    [reflexivity | reflexivity | unfold int_min; simpl; lia
    | unfold int_max; simpl; lia].
Defined.

Lemma run_fires_iff_no_slot_dropped_witness :
  Z.of_nat (dropped [true; false; true]) < int_max ∧
  ∃ lg,
    interp 0 (fan_out (starter_of <$> [true; false; true]))
           (ParallelCallbackData true) [] [] =
    Returns () (mkData true (Z.of_nat (dropped [true; false; true]) - 1) true) lg [] ∧
    tally is_call lg = (if (dropped [true; false; true] =? 0)%nat then 1 else 0)%nat.
Proof.
  split; [unfold int_max; simpl; lia|].
  apply (run_fires_iff_no_slot_dropped true [false; true]).
  unfold int_max. simpl. lia.
Defined.

(** ** parallel_test_1 as written *)

Lemma exec_waiting_reaches (sched : list nat) :
  ∀ c, reaches_waiting c (exec_waiting sched c).
Proof.
  induction sched as [|i sched IH]; intros c; simpl.
  - apply rtc_refl.
  - destruct (wait_step i c) as [c'|] eqn:Hstep; [|apply IH].
    eapply rtc_l; [exists i; exact Hstep | apply IH].
Qed.

(** A run with the wait is a run. *)
Lemma reaches_waiting_reaches (c c' : Config) :
  reaches_waiting c c' → reaches c c'.
Proof.
  apply rtc_subrel. intros x y [i Hstep]. exists i.
  unfold wait_step in Hstep. destruct (may_step i x); [exact Hstep | discriminate].
Qed.

Ltac in_turn k :=
  exists k; eexists _, _, _, _;
  split; [reflexivity|]; split; [reflexivity|]; split; [reflexivity|];
  split; [|reflexivity];
  unfold fired in *; simpl in *; rewrite ?tally_cons; simpl; lia.

(** One case for each of [turn_states]. *)
Ltac turn_cases k Hk :=
  destruct k as [|k];
  [injection Hk as <- <- <- <-
  |simpl in Hk; first [discriminate Hk | turn_cases k Hk]].

Lemma in_turn_start : InTurn (Test1.main_start true).
Proof. in_turn 0%nat. Qed.

Lemma in_turn_step (i : nat) (c c' : Config) :
  InTurn c → wait_step i c = Some c' → InTurn c'.
Proof.
  intros (k & left & tpcs & z & f & Hk & Hpool & Hdata & Hf & Hab) Hstep.
  destruct c as [d lg ab pl]. simpl in Hpool, Hdata, Hab. subst d ab pl.
  unfold wait_step, may_step, thread_step in Hstep.
  turn_cases k Hk;
    (destruct i as [|[|[|i]]]; simpl in Hstep; try discriminate Hstep;
     injection Hstep as <-;
     first [in_turn 0%nat | in_turn 1%nat | in_turn 2%nat | in_turn 3%nat
           |in_turn 4%nat | in_turn 5%nat | in_turn 6%nat | in_turn 7%nat]).
Qed.

Lemma in_turn_reaches (c : Config) :
  reaches_waiting (Test1.main_start true) c → InTurn c.
Proof.
  revert c. apply rtc_ind_r; [apply in_turn_start|].
  intros c c' _ [i Hstep] IH. eapply in_turn_step; eassumption.
Qed.

Lemma in_turn_fired (c : Config) :
  InTurn c →
  (fired c ≤ 1)%nat ∧ (finished c = true → fired c = 1%nat) ∧
  finished (exec_waiting turn_schedule c) = true.
Proof.
  intros (k & left & tpcs & z & f & Hk & Hpool & Hdata & Hf & Hab).
  destruct c as [d lg ab pl]. simpl in Hpool, Hdata, Hab. subst d ab pl.
  turn_cases k Hk;
    (split; [lia|]; split; [|reflexivity]);
    intros Hfin; first [discriminate Hfin | exact Hf].
Qed.

(** The counterexample to C8 as stated: in the program the callers wait,
    and no run of it calls the callback twice. *)
Lemma parallel_test_1_never_twice :
  ¬ ∃ c, reaches_waiting (Test1.main_start true) c ∧ fired c = 2%nat.
Proof.
  intros (c & Hreach & Htwice).
  destruct (in_turn_fired c (in_turn_reaches c Hreach)) as (Hle & _). lia.
Qed.

(** C8, as the code has it. In parallel_test_1 the decrement and the read
    of the counter that follows are two atomic operations, so two calls of
    the lambda that overlap, both decrements before either read, both read
    0 and call the callback: two threads that call it side by side have
    such a run. In the program as written the calls do not overlap, since
    [asyncCall] waits for its task: in every state of every run the
    callback has been called at most once, exactly once when the run is
    over, and every run can be brought to its end. *)
Theorem parallel_test_1_as_written :
  (let c := exec [0; 1]%nat two_callers in
   let c' := exec [0; 1; 0; 1]%nat c in
   counter (data c) = 0 ∧
   log c' = [(1%nat, OpCall); (0%nat, OpCall);
             (1%nat, OpLoadCounter 0); (0%nat, OpLoadCounter 0);
             (1%nat, OpDec 1); (0%nat, OpDec 2)] ∧
   reaches two_callers c' ∧ finished c' = true ∧ fired c' = 2%nat) ∧
  (∀ c, reaches_waiting (Test1.main_start true) c →
        (fired c ≤ 1)%nat ∧
        (finished c = true → fired c = 1%nat) ∧
        ∃ c', reaches_waiting c c' ∧ finished c' = true).
Proof.
  split.
  - split; [reflexivity|]. split; [reflexivity|].
    split; [apply (exec_reaches [0; 1; 0; 1; 0; 1]%nat)|]. split; reflexivity.
  - intros c Hreach.
    destruct (in_turn_fired c (in_turn_reaches c Hreach)) as (Hle & Hone & Hend).
    split; [exact Hle|]. split; [exact Hone|].
    exists (exec_waiting turn_schedule c).
    split; [apply exec_waiting_reaches | exact Hend].
Qed.

Lemma parallel_test_1_as_written_witness :
  reaches_waiting (Test1.main_start true) test1_as_written ∧
  finished test1_as_written = true ∧
  log test1_as_written =
    [(2%nat, OpCall); (2%nat, OpLoadCounter 0); (2%nat, OpDec 1); (0%nat, OpSpawn);
     (1%nat, OpLoadCounter 1); (1%nat, OpDec 2); (0%nat, OpSpawn)] ∧
  fired test1_as_written = 1%nat.
Proof.
  split; [apply exec_waiting_reaches|]. split; [reflexivity|].
  split; [reflexivity|].
  destruct (proj2 parallel_test_1_as_written test1_as_written
              (exec_waiting_reaches _ _)) as (_ & Hone & _).
  exact (Hone eq_refl).
Defined.
